(** * Nightingale AI service: redaction engine and importance scorer

    A shallow embedding of [services/redaction.py] and
    [services/importance.py], with the properties of the design document
    stated and proved over it.

    Modelling conventions.
    - A Python [str] is a list of characters; a character is an 8-bit
      [ascii] code read as the code point U+0000..U+00FF.  The character
      classes ([str.isspace], [\s], [\d], [\w], [str.lower]) follow
      CPython's tables on that range.
    - A Python [dict] whose iteration order is observable is an
      insertion-ordered association list; the process-wide
      [_redaction_store] is a [gmap].
    - [uuid.uuid4().hex] is an input of [redact]: the identifier drawn
      for the map created by that call.
    - Python floats are modelled by exact rationals [Q]. *)

From Stdlib Require Import Ascii String List ZArith QArith Qround Qabs Qminmax.
From Stdlib Require Import Lia Lqa.
From Stdlib Require Import DecimalString DecimalNat.
From stdpp Require Import gmap strings list.

Close Scope Q_scope.
Open Scope nat_scope.
Open Scope list_scope.

(** ** Python strings *)

Definition str := list ascii.

Definition lit (s : string) : str := list_ascii_of_string s.

Definition ord (c : ascii) : nat := nat_of_ascii c.

Definition in_range (lo hi : nat) (c : ascii) : bool :=
  (lo <=? ord c) && (ord c <=? hi).

Definition is_char (a : ascii) (c : ascii) : bool := bool_decide (c = a).

(** [str.isspace] on one character, which is also the class [\s]. *)
Definition is_space (c : ascii) : bool :=
  in_range 9 13 c || in_range 28 32 c || in_range 133 133 c
  || in_range 160 160 c.

(** The class [\d]. *)
Definition is_digit (c : ascii) : bool := in_range 48 57 c.

Definition is_upper_az (c : ascii) : bool := in_range 65 90 c.
Definition is_lower_az (c : ascii) : bool := in_range 97 122 c.

(** The class [\w]: alphanumeric characters and the underscore. *)
Definition is_word (c : ascii) : bool :=
  is_digit c || is_upper_az c || in_range 95 95 c || is_lower_az c
  || in_range 170 170 c || in_range 178 179 c || in_range 181 181 c
  || in_range 185 186 c || in_range 188 190 c || in_range 192 214 c
  || in_range 216 246 c || in_range 248 255 c.

(** [str.lower] on one character. *)
Definition lower_char (c : ascii) : ascii :=
  if is_upper_az c || in_range 192 214 c || in_range 216 222 c
  then ascii_of_nat (ord c + 32) else c.

Definition lower (s : str) : str := map lower_char s.

(** [str.strip()]: leading and trailing whitespace removed. *)
Fixpoint lstrip (s : str) : str :=
  match s with
  | c :: s' => if is_space c then lstrip s' else s
  | [] => []
  end.

Definition rstrip (s : str) : str := rev (lstrip (rev s)).

Definition strip (s : str) : str := rstrip (lstrip s).

(** Truthiness of a string: [not s] holds exactly for the empty string. *)
Definition is_empty (s : str) : bool :=
  match s with [] => true | _ => false end.

(** [old] is a prefix of [s] (what [s.startswith(old)] computes). *)
Fixpoint starts_with (old s : str) : bool :=
  match old, s with
  | [], _ => true
  | a :: old', b :: s' => bool_decide (a = b) && starts_with old' s'
  | _ :: _, [] => false
  end.

(** The operator [sub in s]. *)
Fixpoint contains (sub s : str) : bool :=
  starts_with sub s ||
  match s with
  | [] => false
  | _ :: s' => contains sub s'
  end.

(** [s.replace(old, new)]: every non-overlapping occurrence of [old],
    found from left to right, is replaced.  [skip] counts the characters
    of the occurrence just replaced that are still to be dropped.  An
    empty [old] matches before every character and at the end. *)
Fixpoint replace_from (old new : str) (skip : nat) (s : str) : str :=
  match skip with
  | S k =>
      match s with
      | [] => []
      | _ :: s' => replace_from old new k s'
      end
  | 0 =>
      if starts_with old s then
        match old, s with
        | [], c :: s' => new ++ c :: replace_from old new 0 s'
        | _, [] => new
        | _ :: _, _ :: s' => new ++ replace_from old new (length old - 1) s'
        end
      else
        match s with
        | [] => []
        | c :: s' => c :: replace_from old new 0 s'
        end
  end.

Definition replace (old new s : str) : str := replace_from old new 0 s.

(** [str(n)] for a non-negative integer. *)
Definition str_of_nat (n : nat) : str :=
  lit (NilEmpty.string_of_uint (Nat.to_uint n)).

(** ** The regular expressions of the pattern registry

    Every quantifier in [_PATTERNS] applies to a single character class,
    so a pattern is a sequence of items: the assertion [\b], or a class
    repeated greedily between [lo] and [hi] times.  Matching backtracks
    as [re] does: the longest repetition is tried first. *)

Inductive item :=
  | Boundary
  | Rep (cls : ascii → bool) (lo : nat) (hi : option nat).

Definition regex := list item.

Definition at_boundary (prev next : option ascii) : bool :=
  xorb (from_option is_word false prev) (from_option is_word false next).

(** Length of the longest run of [cls] at the head of [s], at most [cap]. *)
Fixpoint run (cls : ascii → bool) (cap : option nat) (s : str) : nat :=
  match s, cap with
  | _, Some 0 => 0
  | c :: s', Some (S k) => if cls c then S (run cls (Some k) s') else 0
  | c :: s', None => if cls c then S (run cls None s') else 0
  | [], _ => 0
  end.

(** First success of [k] at [n], [n-1], ..., [lo]. *)
Fixpoint try_down (k : nat → option nat) (lo n : nat) : option nat :=
  match n with
  | 0 => if lo =? 0 then k 0 else None
  | S n' =>
      if S n' <? lo then None
      else match k (S n') with
           | Some r => Some r
           | None => try_down k lo n'
           end
  end.

(** Character before the position reached after consuming [n]
    characters of [s], when [prev] precedes [s]. *)
Definition prev_after (prev : option ascii) (n : nat) (s : str) : option ascii :=
  match last (take n s) with
  | Some c => Some c
  | None => prev
  end.

(** Match [r] at the head of [s]; the result is the length matched. *)
Fixpoint match_here (r : regex) (prev : option ascii) (s : str) : option nat :=
  match r with
  | [] => Some 0
  | Boundary :: r' =>
      if at_boundary prev (head s) then match_here r' prev s else None
  | Rep cls lo hi :: r' =>
      try_down
        (λ n, (λ x, n + x) <$> match_here r' (prev_after prev n s) (drop n s))
        lo (run cls hi s)
  end.

(** [pattern.finditer(text)]: the non-overlapping matches from left to
    right, as (start, end, matched text).  After a match of length [n]
    the scan resumes at its end ([skip] drops the [n - 1] characters that
    remain of it). *)
Fixpoint scan (r : regex) (pos : nat) (prev : option ascii) (skip : nat)
    (s : str) : list (nat * nat * str) :=
  match skip with
  | S k =>
      match s with
      | [] => []
      | c :: s' => scan r (S pos) (Some c) k s'
      end
  | 0 =>
      match match_here r prev s with
      | Some n =>
          (pos, pos + n, take n s) ::
          match s with
          | [] => []
          | c :: s' => scan r (S pos) (Some c) (pred n) s'
          end
      | None =>
          match s with
          | [] => []
          | c :: s' => scan r (S pos) (Some c) 0 s'
          end
      end
  end.

Definition finditer (r : regex) (text : str) : list (nat * nat * str) :=
  scan r 0 None 0 text.

(** Builders for the items. *)
Definition one (cls : ascii → bool) : item := Rep cls 1 (Some 1).
Definition opt (cls : ascii → bool) : item := Rep cls 0 (Some 1).
Definition plus (cls : ascii → bool) : item := Rep cls 1 None.
Definition rep (cls : ascii → bool) (lo hi : nat) : item := Rep cls lo (Some hi).
Definition at_least (cls : ascii → bool) (lo : nat) : item := Rep cls lo None.
Definition chr (a : ascii) : item := one (is_char a).
(** A letter under [re.IGNORECASE]. *)
Definition is_char_i (a : ascii) (c : ascii) : bool :=
  bool_decide (lower_char c = lower_char a).
Definition chr_i (a : ascii) : item := one (is_char_i a).

Definition any_of (l : str) (c : ascii) : bool := bool_decide (c ∈ l).

Definition cls_alnum (c : ascii) : bool :=
  is_upper_az c || is_lower_az c || is_digit c.

Definition cls_sep (c : ascii) : bool := is_space c || is_char "-" c.

Definition _PATTERNS : list (str * regex) :=
  [ (* \b[STFGM]\d{7}[A-Z]\b *)
    (lit "SG_NRIC",
     [Boundary; one (any_of (lit "STFGM")); rep is_digit 7 7;
      one is_upper_az; Boundary]);
    (* \b[89]\d{7}\b *)
    (lit "PHONE_NUMBER",
     [Boundary; one (any_of (lit "89")); rep is_digit 7 7; Boundary]);
    (* \b6\d{7}\b *)
    (lit "PHONE_NUMBER",
     [Boundary; chr "6"; rep is_digit 7 7; Boundary]);
    (* \b\+65\s?[689]\d{7}\b *)
    (lit "PHONE_NUMBER",
     [Boundary; chr "+"; chr "6"; chr "5"; opt is_space;
      one (any_of (lit "689")); rep is_digit 7 7; Boundary]);
    (* \bMRN[:\s-]?\d{6,10}\b, IGNORECASE *)
    (lit "MEDICAL_RECORD_NUMBER",
     [Boundary; chr_i "M"; chr_i "R"; chr_i "N";
      opt (λ c, is_char ":" c || cls_sep c); rep is_digit 6 10; Boundary]);
    (* \b[A-Za-z0-9._%+-]+@[A-Za-z0-9.-]+\.[A-Z|a-z]{2,}\b *)
    (lit "EMAIL_ADDRESS",
     [Boundary; plus (λ c, cls_alnum c || any_of (lit "._%+-") c); chr "@";
      plus (λ c, cls_alnum c || any_of (lit ".-") c); chr ".";
      at_least (λ c, is_upper_az c || is_char "|" c || is_lower_az c) 2;
      Boundary]);
    (* \b\d{4}[\s-]?\d{4}[\s-]?\d{4}[\s-]?\d{1,7}\b *)
    (lit "CREDIT_CARD",
     [Boundary; rep is_digit 4 4; opt cls_sep; rep is_digit 4 4; opt cls_sep;
      rep is_digit 4 4; opt cls_sep; rep is_digit 1 7; Boundary]);
    (* \b\d{1,3}\.\d{1,3}\.\d{1,3}\.\d{1,3}\b *)
    (lit "IP_ADDRESS",
     [Boundary; rep is_digit 1 3; chr "."; rep is_digit 1 3; chr ".";
      rep is_digit 1 3; chr "."; rep is_digit 1 3; Boundary]);
    (* https?:// followed by one or more characters other than
       whitespace, <, >, the double quote and the apostrophe; IGNORECASE *)
    (lit "URL",
     [chr_i "h"; chr_i "t"; chr_i "t"; chr_i "p";
      opt (is_char_i "s"); chr ":"; chr "/"; chr "/";
      plus (λ c, negb (is_space c || any_of ["<"; ">"; "034"; "'"]%char c))]);
    (* \b\d{1,2}[/-]\d{1,2}[/-]\d{2,4}\b *)
    (lit "DATE_TIME",
     [Boundary; rep is_digit 1 2; one (any_of (lit "/-")); rep is_digit 1 2;
      one (any_of (lit "/-")); rep is_digit 2 4; Boundary]);
    (* \b\d{4}-\d{2}-\d{2}\b *)
    (lit "DATE_TIME",
     [Boundary; rep is_digit 4 4; chr "-"; rep is_digit 2 2; chr "-";
      rep is_digit 2 2; Boundary]) ].

(** ** Insertion-ordered dictionaries

    [d[k] = v] keeps the position of a key that is already present and
    appends a new key at the end; [d.items()] is the list itself. *)

Section dict.
Context {K V : Type} `{EqDecision K}.

Fixpoint dict_get (d : list (K * V)) (k : K) : option V :=
  match d with
  | [] => None
  | (k', v) :: d' => if decide (k = k') then Some v else dict_get d' k
  end.

Fixpoint dict_set (d : list (K * V)) (k : K) (v : V) : list (K * V) :=
  match d with
  | [] => [(k, v)]
  | (k', v') :: d' =>
      if decide (k = k') then (k, v) :: d' else (k', v') :: dict_set d' k v
  end.
End dict.

(** ** services/redaction.py *)

(** A collected match: [(m.start(), m.end(), entity_type, m.group())]. *)
Record span := Span {
  start : nat;
  stop : nat;
  entity_type : str;
  value : str;
}.

Record RedactionMap := mkRedactionMap {
  id : str;
  forward : list (str * str);        (* original -> placeholder *)
  reverse : list (str * str);        (* placeholder -> original *)
  entity_counts : list (str * nat);
}.

(** [RedactionMap()], with the identifier the factory draws. *)
Definition new_map (fresh : str) : RedactionMap :=
  mkRedactionMap fresh [] [] [].

(** The f-string [<{entity_type}_{count}>]. *)
Definition placeholder_of (ty : str) (count : nat) : str :=
  lit "<" ++ ty ++ lit "_" ++ str_of_nat count ++ lit ">".

(** [RedactionMap.add]: the placeholder and the updated map. *)
Definition add (m : RedactionMap) (original ty : str) : str * RedactionMap :=
  match dict_get (forward m) original with
  | Some p => (p, m)
  | None =>
      let count := default 0 (dict_get (entity_counts m) ty) + 1 in
      let placeholder := placeholder_of ty count in
      (placeholder,
       mkRedactionMap (id m)
         (dict_set (forward m) original placeholder)
         (dict_set (reverse m) placeholder original)
         (dict_set (entity_counts m) ty count))
  end.

Definition total_entities (m : RedactionMap) : nat := length (forward m).

(** The two loops over [_PATTERNS] and [pattern.finditer(text)]. *)
Definition collect_matches (text : str) : list span :=
  flat_map (λ '(ty, pattern),
              map (λ '(s, e, g), Span s e ty g) (finditer pattern text))
           _PATTERNS.

(** [matches.sort(key=lambda x: x[0], reverse=True)]: a stable sort by
    start offset, descending; equal starts keep their relative order. *)
Fixpoint insert_desc (x : span) (l : list span) : list span :=
  match l with
  | [] => [x]
  | y :: l' => if start y <=? start x then x :: l else y :: insert_desc x l'
  end.

Definition sort_desc (l : list span) : list span := foldr insert_desc [] l.

(** [match[0] < existing[1] and match[1] > existing[0]] *)
Definition overlaps (m existing : span) : bool :=
  (start m <? stop existing) && (start existing <? stop m).

(** The de-duplication loop: a match is appended to [filtered] unless it
    overlaps a span already there. *)
Definition dedup_step (filtered : list span) (m : span) : list span :=
  if existsb (overlaps m) filtered then filtered else filtered ++ [m].

Definition dedup (matches : list span) : list span :=
  fold_left dedup_step matches [].

(** The spans [redact] replaces, in the order it replaces them. *)
Definition kept_spans (text : str) : list span :=
  dedup (sort_desc (collect_matches text)).

(** One round of the replacement loop:
    [redacted = redacted[:start] + placeholder + redacted[end:]]. *)
Definition substitute_step (st : RedactionMap * str) (m : span)
    : RedactionMap * str :=
  let '(rmap, redacted) := st in
  let '(placeholder, rmap') := add rmap (value m) (entity_type m) in
  (rmap', take (start m) redacted ++ placeholder ++ drop (stop m) redacted).

Definition substitute (filtered : list span) (rmap : RedactionMap)
    (text : str) : RedactionMap * str :=
  fold_left substitute_step filtered (rmap, text).

(** [redact(text)], threading [_redaction_store]; [fresh] is the
    identifier of the map the call creates.  The log line has no effect
    on the result. *)
Definition redact (fresh : str) (text : str) (store : gmap str RedactionMap)
    : (str * RedactionMap) * gmap str RedactionMap :=
  if is_empty text || is_empty (strip text) then
    let empty_map := new_map fresh in
    ((text, empty_map), <[id empty_map := empty_map]> store)
  else
    let matches := collect_matches text in
    if bool_decide (matches = []) then
      let empty_map := new_map fresh in
      ((text, empty_map), <[id empty_map := empty_map]> store)
    else
      let filtered := dedup (sort_desc matches) in
      let '(redaction_map, redacted) :=
        substitute filtered (new_map fresh) text in
      ((redacted, redaction_map), <[id redaction_map := redaction_map]> store).

Inductive exn :=
  | KeyError (msg : str).

(** [de_redact(redacted_text, map_id)]. *)
Definition de_redact (redacted_text map_id : str)
    (store : gmap str RedactionMap) : exn + str :=
  match store !! map_id with
  | None =>
      inl (KeyError (lit "Redaction map '" ++ map_id
                     ++ lit "' not found or has expired"))
  | Some redaction_map =>
      inr (fold_left (λ result '(placeholder, original),
                        replace placeholder original result)
                     (reverse redaction_map) redacted_text)
  end.

(** [cleanup_redaction_map(map_id)]:
    [_redaction_store.pop(map_id, None) is not None]. *)
Definition cleanup_redaction_map (map_id : str)
    (store : gmap str RedactionMap) : bool * gmap str RedactionMap :=
  match store !! map_id with
  | Some _ => (true, delete map_id store)
  | None => (false, store)
  end.

(** ** services/importance.py *)

Local Open Scope Q_scope.

Definition RECENCY_WEIGHT : Q := 0.3.
Definition RISK_LEVEL_WEIGHT : Q := 0.3.
Definition UNRESOLVED_ACTION_WEIGHT : Q := 0.2.
Definition LEARNED_WEIGHT : Q := 0.2.

Definition RISK_LEVEL_SCORES : list (str * Q) :=
  [ (lit "critical", 1.0); (lit "high", 0.8);
    (lit "medium", 0.5); (lit "low", 0.2) ].

Definition ACTION_TYPE_WEIGHTS : list (str * Q) :=
  [ (lit "accept", 1.0); (lit "manual_highlight", 0.8);
    (lit "comment", 0.7); (lit "pin", 0.7); (lit "edit", 0.5);
    (lit "view", 0.3); (lit "reject", -0.3);
    (lit "dismiss", -0.2); (lit "unpin", 0.0) ].

Definition _UNRESOLVED_KEYWORDS : list str :=
  map lit
    [ "pending"; "monitor"; "follow up"; "follow-up"; "reassess";
      "unresolved"; "continue"; "review"; "escalate"; "refer";
      "outstanding"; "awaiting"; "to be"; "tbd"; "scheduled" ]%string.

(** [max(a, b)] and [min(a, b)] on numbers: the first argument is kept
    unless the second is strictly larger (smaller). *)
Definition py_max (a b : Q) : Q := if Qle_bool b a then a else b.
Definition py_min (a b : Q) : Q := if Qle_bool a b then a else b.

(** [round(x)] to the nearest integer, ties to the even one. *)
Definition round_half_even (x : Q) : Z :=
  let f := Qfloor x in
  match Qcompare (x - inject_Z f) 0.5 with
  | Lt => f
  | Gt => (f + 1)%Z
  | Eq => if Z.even f then f else (f + 1)%Z
  end.

(** [round(x, 3)]. *)
Definition round3 (x : Q) : Q := round_half_even (x * 1000) # 1000.

(** A [datetime]: its wall-clock fields as microseconds since the epoch,
    and the UTC offset of its [tzinfo], if it has one. *)
Record datetime := Datetime {
  wall_us : Z;
  tz_offset_us : option Z;
}.

(** [created_at: str | datetime | None]. *)
Inductive timestamp :=
  | TsStr (s : str)
  | TsDatetime (dt : datetime).

(** A stored interaction: the [keywords] entry of [target_metadata]. *)
Inductive keywords_field :=
  | KwList (l : list str)
  | KwStr (s : str)
  | KwOther.

(** One row of [interaction_log]; an absent key is [None]. *)
Record row := Row {
  action_type : option str;
  target_id : option str;
  target_metadata : option (option keywords_field);
}.

(** Outcome of building and executing the query inside the [try]. *)
Inductive response :=
  | Raised
  | Data (rows : option (list row)).

(** [s.split(",")]. *)
Fixpoint split_comma (cur : str) (s : str) : list str :=
  match s with
  | [] => [rev cur]
  | c :: s' =>
      if is_char "," c then rev cur :: split_comma [] s'
      else split_comma (c :: cur) s'
  end.

Definition stopwords : gset str :=
  list_to_set (map lit
    [ "the"; "and"; "was"; "for"; "that"; "with"; "this"; "from";
      "are"; "were"; "been"; "have"; "has"; "had"; "not"; "but";
      "what"; "all"; "can"; "her"; "his"; "one"; "our"; "out";
      "also"; "into"; "its"; "may"; "than"; "then"; "them";
      "some"; "she"; "him"; "how"; "did"; "who"; "will" ]%string).

(** [re.findall(r"[a-z]{3,}", text.lower())], minus the stop words. *)
Definition _extract_keywords (text : str) : gset str :=
  let words :=
    map (λ '(_, _, g), g) (finditer [at_least is_lower_az 3] (lower text)) in
  list_to_set words ∖ stopwords.

Definition _compute_risk_score (risk_level : str) : Q :=
  default 0.5 (dict_get RISK_LEVEL_SCORES (strip (lower risk_level))).

Definition _compute_unresolved_score (content : str) : Q :=
  if is_empty content then 0.0
  else
    let content_lower := lower content in
    let matches :=
      length (filter (λ kw, contains kw content_lower = true)
                     _UNRESOLVED_KEYWORDS) in
    if 3 <=? matches then 1.0
    else if 2 <=? matches then 0.8
    else if 1 <=? matches then 0.5
    else 0.0.

(** The step function of [_compute_recency_score] on the age in hours. *)
Definition recency_of_age (age_hours : Q) : Q :=
  if Qle_bool age_hours 24 then 1.0
  else if Qle_bool age_hours 72 then 0.8
  else if Qle_bool age_hours 168 then 0.6
  else if Qle_bool age_hours 336 then 0.4
  else if Qle_bool age_hours 720 then 0.2
  else 0.1.

(** The instant a datetime denotes, in microseconds since the epoch; a
    naive datetime is read as UTC ([dt.replace(tzinfo=timezone.utc)]). *)
Definition instant_us (dt : datetime) : Z :=
  (wall_us dt - default 0 (tz_offset_us dt))%Z.

(** The composite of [compute_importance_score]: weighted sum, clamp,
    [round(final, 3)]. *)
Definition composite (recency risk unresolved learned : Q) : Q :=
  let score :=
    (RECENCY_WEIGHT * recency + RISK_LEVEL_WEIGHT * risk
     + UNRESOLVED_ACTION_WEIGHT * unresolved + LEARNED_WEIGHT * learned) in
  let final := py_max 0 (py_min 1 score) in
  round3 final.

Section importance.
(** The collaborators outside the repository: the parser
    [datetime.fromisoformat] ([None] stands for [ValueError]), the
    clock, the process environment, the Supabase client factory and
    the execution of the [interaction_log] query. *)
Context {Client : Type}.
Variable fromisoformat : str → option datetime.
Variable now_us : Z.
Variable SUPABASE_URL SUPABASE_SERVICE_ROLE_KEY : option str.
Variable create_client : str → str → Client.
Variable execute_query : Client → response.

(** [_get_supabase()], threading the global [_supabase_client]. *)
Definition _get_supabase (_supabase_client : option Client)
    : option Client * option Client :=
  match _supabase_client with
  | Some c => (Some c, _supabase_client)
  | None =>
      match SUPABASE_URL, SUPABASE_SERVICE_ROLE_KEY with
      | Some url, Some key =>
          if is_empty url || is_empty key then (None, None)
          else let c := create_client url key in (Some c, Some c)
      | _, _ => (None, None)
      end
  end.

(** The datetime a given [created_at] stands for; [None] when the
    string does not parse. *)
Definition parse_created_at (ts : timestamp) : option datetime :=
  match ts with
  | TsStr s => fromisoformat (replace (lit "Z") (lit "+00:00") s)
  | TsDatetime dt => Some dt
  end.

(** [max(0, (now - dt).total_seconds() / 3600)]. *)
Definition age_hours (dt : datetime) : Q :=
  let total_seconds := inject_Z (now_us - instant_us dt) / 1000000 in
  py_max 0 (total_seconds / 3600).

Definition _compute_recency_score (created_at : option timestamp) : Q :=
  match created_at with
  | None => 0.5
  | Some ts =>
      match parse_created_at ts with
      | None => 0.5
      | Some dt => recency_of_age (age_hours dt)
      end
  end.

(** The keyword set stored with a row: the [keywords] entry of its
    [target_metadata], an empty list when either is absent. *)
Definition stored_keywords (r : row) : gset str :=
  match default (KwList []) (default None (target_metadata r)) with
  | KwList l => list_to_set l
  | KwStr s => list_to_set (split_comma [] s)
  | KwOther => ∅
  end.

(** The overlap ratio of a row; [None] when the row is skipped. *)
Definition overlap_ratio (keywords : gset str) (r : row) : option Q :=
  if bool_decide (stored_keywords r = ∅) then Some 0.2
  else
    let overlap := keywords ∩ stored_keywords r in
    if bool_decide (overlap = ∅) then None
    else Some (inject_Z (Z.of_nat (size overlap))
               / inject_Z (Z.of_nat (Nat.max (size keywords) 1))).

(** The loop over the rows: [target_scores] and
    [target_keyword_overlap], keyed by target in insertion order. *)
Definition learned_row (keywords : gset str)
    (acc : list (str * Q) * list (str * Q)) (r : row)
    : list (str * Q) * list (str * Q) :=
  let '(target_scores, target_keyword_overlap) := acc in
  let action := default (lit "view") (action_type r) in
  let target := default [] (target_id r) in
  match overlap_ratio keywords r with
  | None => acc
  | Some ratio =>
      let type_multiplier :=
        default 0.3 (dict_get ACTION_TYPE_WEIGHTS action) in
      let score0 := default 0.0 (dict_get target_scores target) in
      let overlap0 :=
        default 0.0 (dict_get target_keyword_overlap target) in
      (dict_set target_scores target (score0 + type_multiplier),
       dict_set target_keyword_overlap target (py_max overlap0 ratio))
  end.

Definition learned_of_rows (keywords : gset str) (rows : list row) : Q :=
  let '(target_scores, target_keyword_overlap) :=
    fold_left (learned_row keywords) rows ([], []) in
  if bool_decide (target_scores = []) then 0.5
  else
    let '(total_score, total_weight) :=
      fold_left (λ '(ts, tw) '(target, score),
                   let overlap :=
                     default 0.0
                       (dict_get target_keyword_overlap target) in
                   ((ts + overlap * score), (tw + overlap)))
                target_scores (0.0, 0.0) in
    if Qeq_bool total_weight 0 then 0.5
    else
      let raw := (total_score / total_weight) in
      let normalized := py_min 1 (raw / 5) in
      py_max 0 normalized.

(** [_compute_learned_score(content, patient_id)]: the score and the
    new value of the global client. *)
Definition _compute_learned_score (content : str)
    (_supabase_client : option Client) : Q * option Client :=
  let '(client, global') := _get_supabase _supabase_client in
  match client with
  | None => (0.5, global')
  | Some c =>
      let keywords := _extract_keywords content in
      if bool_decide (keywords = ∅) then (0.5, global')
      else
        match execute_query c with
        | Raised => (0.5, global')
        | Data data =>
            let rows := default [] data in
            if bool_decide (rows = []) then (0.5, global')
            else (learned_of_rows keywords rows, global')
        end
  end.

(** [compute_importance_score(content, risk_level, created_at)]. *)
Definition compute_importance_score (content risk_level : str)
    (created_at : option timestamp) (_supabase_client : option Client)
    : Q * option Client :=
  let recency := _compute_recency_score created_at in
  let risk := _compute_risk_score risk_level in
  let unresolved := _compute_unresolved_score content in
  let '(learned, global') :=
    _compute_learned_score content _supabase_client in
  (composite recency risk unresolved learned, global').
End importance.

Local Close Scope Q_scope.

(** ** Notions used in the statements *)

(** Position [p] lies in the half-open interval of [m]. *)
Definition covers (m : span) (p : nat) : Prop := start m ≤ p < stop m.

(** Later entries of the list do not overlap earlier ones. *)
Definition separated (l : list span) : Prop :=
  ∀ i j a b, i < j → l !! i = Some a → l !! j = Some b → overlaps b a = false.

(** [kw] occurs in [content] as a substring, letter case ignored (the
    keywords are lower case). *)
Definition occurs_ci (kw content : str) : Prop :=
  ∃ pre post, lower content = pre ++ kw ++ post.

(** The history collaborator yields nothing usable for [content]: no
    client can be had, the query raises, it returns no rows, or every
    row it returns is skipped for lack of a common keyword. *)
Definition history_degraded {Client : Type}
    (SUPABASE_URL SUPABASE_SERVICE_ROLE_KEY : option str)
    (create_client : str → str → Client)
    (execute_query : Client → response)
    (content : str) (_supabase_client : option Client) : Prop :=
  match (_get_supabase SUPABASE_URL SUPABASE_SERVICE_ROLE_KEY create_client
           _supabase_client).1 with
  | None => True
  | Some c =>
      execute_query c = Raised
      ∨ execute_query c = Data None
      ∨ ∃ rows, execute_query c = Data (Some rows)
                ∧ Forall (λ r, overlap_ratio (_extract_keywords content) r
                               = None) rows
  end.

(** A match of [text]: a non-empty slice of it, with its offsets. *)
Definition wf_span (text : str) (m : span) : Prop :=
  start m < stop m ∧ stop m ≤ length text
  ∧ value m = take (stop m - start m) (drop (start m) text).

(** The pattern has an item that consumes at least one character. *)
Definition consumes (r : regex) : bool :=
  existsb (λ it, match it with Rep _ (S _) _ => true | _ => false end) r.

(** Start offsets do not increase along the list. *)
Fixpoint desc (l : list span) : Prop :=
  match l with
  | [] => True
  | a :: l' => Forall (λ b, start b ≤ start a) l' ∧ desc l'
  end.

(** Every span is non-empty and ends where the previous one starts, or
    before; the first ends at [bound] or before. *)
Fixpoint chained (bound : nat) (l : list span) : Prop :=
  match l with
  | [] => True
  | m :: l' => start m < stop m ∧ stop m ≤ bound ∧ chained (start m) l'
  end.

(** A placeholder-shaped string: [<], a body without angle brackets,
    [>]. *)
Definition wf_placeholder (p : str) : Prop :=
  ∃ body, p = "<"%char :: body ++ [">"%char]
          ∧ ("<"%char ∉ body) ∧ (">"%char ∉ body).

(** A category label without angle brackets. *)
Definition ok_type (ty : str) : Prop :=
  ("<"%char ∉ ty) ∧ (">"%char ∉ ty).

(** The distinct values of a list of spans in order of first
    occurrence, each with the category of that occurrence. *)
Definition first_seen_step (acc : list (str * str)) (m : span)
    : list (str * str) :=
  if decide (value m ∈ map fst acc) then acc
  else acc ++ [(value m, entity_type m)].

Definition first_seen (ks : list span) : list (str * str) :=
  fold_left first_seen_step ks [].

(** Number of entries of [earlier] equal to [ty], plus one. *)
Definition ordinal (earlier : list str) (ty : str) : nat :=
  S (length (filter (λ t, t = ty) earlier)).

(** Each (value, category) with the placeholder whose ordinal counts the
    earlier entries of the same category. *)
Fixpoint numbered (earlier : list str) (l : list (str * str))
    : list (str * str) :=
  match l with
  | [] => []
  | (v, ty) :: l' =>
      (v, placeholder_of ty (ordinal earlier ty))
      :: numbered (earlier ++ [ty]) l'
  end.

(** The state of a map once the spans yielding [fs] have been added:
    the content of [forward], [reverse] and [entity_counts]. *)
Definition map_state (m : RedactionMap) (fs : list (str * str)) : Prop :=
  NoDup (map fst fs)
  ∧ forward m = numbered [] fs
  ∧ reverse m = map (λ '(v, p), (p, v)) (forward m)
  ∧ ∀ ty, default 0 (dict_get (entity_counts m) ty)
          = length (filter (λ t, t = ty) (map snd fs)).

(** A text cut into literal pieces and replaced slots; a slot carries
    the original value and the placeholder that stands for it. *)
Inductive piece :=
  | Lit (s : str)
  | Slot (v p : str).

(** The text with every slot showing its original value. *)
Fixpoint original_text (T : list piece) : str :=
  match T with
  | [] => []
  | Lit s :: T' => s ++ original_text T'
  | Slot v _ :: T' => v ++ original_text T'
  end.

(** The text with the slots whose placeholder is in [restored] showing
    the original value, and the others the placeholder. *)
Fixpoint render (restored : list str) (T : list piece) : str :=
  match T with
  | [] => []
  | Lit s :: T' => s ++ render restored T'
  | Slot v p :: T' =>
      (if decide (p ∈ restored) then v else p) ++ render restored T'
  end.

(** The whitespace characters, and the patterns whose first consumed
    character cannot be one of them. *)
Definition space_chars : list ascii :=
  map ascii_of_nat [9; 10; 11; 12; 13; 28; 29; 30; 31; 32; 133; 160].

Definition starts_nonspace (r : regex) : bool :=
  match r with
  | Boundary :: Rep cls (S _) _ :: _
  | Rep cls (S _) _ :: _ => forallb (λ c, negb (cls c)) space_chars
  | _ => false
  end.

(** The numbering property as the design document words it: of two
    distinct values of one category, the one that appears first in the
    input text has the smaller ordinal. *)
Definition numbered_in_text_order (fresh text : str) : Prop :=
  let m := (redact fresh text ∅).1.2 in
  ∀ a b ty na nb,
    a ∈ kept_spans text → b ∈ kept_spans text →
    (∀ c, c ∈ kept_spans text → value c = value a → start a ≤ start c) →
    (∀ c, c ∈ kept_spans text → value c = value b → start b ≤ start c) →
    start a < start b →
    dict_get (forward m) (value a) = Some (placeholder_of ty na) →
    dict_get (forward m) (value b) = Some (placeholder_of ty nb) →
    na < nb.


(** ** Further notions used in the statements *)

(** The map [redact] builds from the kept spans of a text. *)
Definition built_map (fresh text : str) : RedactionMap :=
  (substitute (kept_spans text) (new_map fresh) text).1.

(** ** services/importance.py: [batch_score] *)

(** A highlight dictionary as [batch_score] and the highlights endpoint
    use it: the value [h.get(key)] of each key they read or write, an
    absent key being [None].  The stored scores are floats, the other
    values strings. *)
Record highlight_dict := HighlightDict {
  get_content_snippet : option str;
  get_risk_reason : option str;
  get_risk_level : option str;
  get_importance_score : option Q;
  get_provenance_pointer : option str;
  get_created_at : option str;
}.

(** [highlight["importance_score"] = score]. *)
Definition set_importance_score (h : highlight_dict) (score : Q)
    : highlight_dict :=
  HighlightDict (get_content_snippet h) (get_risk_reason h)
    (get_risk_level h) (Some score) (get_provenance_pointer h)
    (get_created_at h).

(** [h["created_at"] = created_at]. *)
Definition set_created_at (h : highlight_dict) (created_at : str)
    : highlight_dict :=
  HighlightDict (get_content_snippet h) (get_risk_reason h)
    (get_risk_level h) (get_importance_score h) (get_provenance_pointer h)
    (Some created_at).

Section batch.
Context {Client : Type}.
Variable fromisoformat : str → option datetime.
Variable now_us : Z.
Variable SUPABASE_URL SUPABASE_SERVICE_ROLE_KEY : option str.
Variable create_client : str → str → Client.
Variable execute_query : Client → response.

(** One round of the loop of [batch_score]. *)
Definition score_highlight (h : highlight_dict)
    (_supabase_client : option Client) : highlight_dict * option Client :=
  let '(score, global') :=
    compute_importance_score fromisoformat now_us SUPABASE_URL
      SUPABASE_SERVICE_ROLE_KEY create_client execute_query
      (default [] (get_content_snippet h))
      (default (lit "medium") (get_risk_level h))
      (TsStr <$> get_created_at h)
      _supabase_client in
  (set_importance_score h score, global').

(** [batch_score(highlights, patient_id)]: the list with the scores
    written, and the new value of the global client. *)
Fixpoint batch_score (highlights : list highlight_dict)
    (_supabase_client : option Client)
    : list highlight_dict * option Client :=
  match highlights with
  | [] => ([], _supabase_client)
  | h :: rest =>
      let '(h', global1) := score_highlight h _supabase_client in
      let '(rest', global2) := batch_score rest global1 in
      (h' :: rest', global2)
  end.
End batch.

(** ** Sorting with a key, as [list.sort(key=..., reverse=True)] does *)

Section sort_by.
Context {A : Type}.
(** [leb y x]: the key of [y] is at most the key of [x]. *)
Variable leb : A → A → bool.

(** [x], which stood before every element of [l], is placed before the
    first element whose key does not exceed its own. *)
Fixpoint insert_by (x : A) (l : list A) : list A :=
  match l with
  | [] => [x]
  | y :: l' => if leb y x then x :: l else y :: insert_by x l'
  end.

Definition sort_by (l : list A) : list A := foldr insert_by [] l.

(** No element is followed by one with a larger key. *)
Fixpoint sorted_by (l : list A) : Prop :=
  match l with
  | [] => True
  | a :: l' => Forall (λ b, leb b a = true) l' ∧ sorted_by l'
  end.
End sort_by.

(** ** routers/redact.py *)

Record RedactRequest := mkRedactRequest {
  request_text : str;
  cleanup_map : bool;
}.

(** [EntityBreakdown(entity_type, count)] is a pair. *)
Record RedactResponse := mkRedactResponse {
  redacted_text : str;
  entity_count : nat;
  entities_by_type : list (str * nat);
  redaction_map_id : option str;
}.

(** [redact_text(request)], threading [_redaction_store]; [fresh] is the
    identifier drawn for the map.  [redact] and [cleanup_redaction_map]
    raise nothing, so the handler of [except Exception] is not
    reached. *)
Definition redact_text (fresh : str) (request : RedactRequest)
    (store : gmap str RedactionMap)
    : RedactResponse * gmap str RedactionMap :=
  let '((redacted, redaction_map), store1) :=
    redact fresh (request_text request) store in
  let by_type :=
    sort_by (λ e1 e2 : str * nat, e1.2 <=? e2.2)
            (entity_counts redaction_map) in
  let '(map_id, store2) :=
    if cleanup_map request
    then (None, (cleanup_redaction_map (id redaction_map) store1).2)
    else (Some (id redaction_map), store1) in
  (mkRedactResponse redacted (total_entities redaction_map) by_type map_id,
   store2).

(** ** services/llm.py: [_call_with_retry] *)

Definition MAX_RETRIES : nat := 3.
Definition RETRY_BASE_DELAY : Q := 1.0%Q.

(** The exceptions that cross the functions modelled below:
    [RuntimeError] and [ValueError] with their text, the [KeyError] of
    [de_redact], the validation error of a response model (a
    [ValueError] as well), and any other exception. *)
Inductive exception :=
  | RuntimeError (msg : str)
  | ValueError (msg : str)
  | LookupError (e : exn)
  | ValidationError
  | OtherError (msg : str).

(** What one call of [client.chat.completions.create] does:
    [RateLimitError], another exception, or a response whose first
    choice has the given content. *)
Inductive api_reply :=
  | RateLimited
  | ApiRaised (e : exception)
  | Replied (content : option str).

Section retry.
(** The parsed JSON value, the parser [json.loads] (the left case is the
    text of a [JSONDecodeError]) and the reply to the attempt of each
    number. *)
Context {Json : Type}.
Variable json_loads : str → str + Json.
Variable create : nat → api_reply.

(** The loop [for attempt in range(1, MAX_RETRIES + 1)] from [attempt]
    on, with [remaining] attempts left; [slept] lists the delays passed
    to [asyncio.sleep] so far, oldest first. *)
Fixpoint retry_loop (remaining attempt : nat) (slept : list Q)
    : (exception + Json) * list Q :=
  match remaining with
  | 0 =>
      (inl (RuntimeError
              (lit "Groq API rate limit exceeded after 3 retries")), slept)
  | S remaining' =>
      match create attempt with
      | RateLimited =>
          let delay := (RETRY_BASE_DELAY * inject_Z (2 ^ Z.of_nat (attempt - 1)))%Q in
          retry_loop remaining' (S attempt) (slept ++ [delay])
      | ApiRaised e => (inl e, slept)
      | Replied content =>
          match content with
          | None => (inl (ValueError (lit "Empty response from Groq model")), slept)
          | Some c =>
              if is_empty c
              then (inl (ValueError (lit "Empty response from Groq model")),
                    slept)
              else
                match json_loads c with
                | inr parsed => (inr parsed, slept)
                | inl exc =>
                    (inl (ValueError
                            (lit "Model returned invalid JSON: " ++ exc)),
                     slept)
                end
          end
      end
  end.

(** [_call_with_retry(messages)]: [_get_client] first, which needs a
    non-empty [GROQ_API_KEY]. *)
Definition _call_with_retry (GROQ_API_KEY : option str)
    : (exception + Json) * list Q :=
  if is_empty (default [] GROQ_API_KEY)
  then (inl (RuntimeError
               (lit "GROQ_API_KEY environment variable is not set. "
                ++ lit "Obtain a key from https://console.groq.com "
                ++ lit "and export it.")), [])
  else retry_loop MAX_RETRIES 1 [].
End retry.

(** ** routers/highlights.py *)

Record HighlightEntry := mkHighlightEntry {
  entry_content : str;
  entry_type : str;
  entry_created_at : option str;
  entry_id : option str;
}.

Record HighlightsRequest := mkHighlightsRequest {
  request_entries : list HighlightEntry;
  patient_id : option str;
}.

(** The dictionary sent to the model for an entry. *)
Record redacted_entry := mkRedactedEntry {
  re_content : str;
  re_entry_type : str;
  re_created_at : str;
  re_entry_id : str;
}.

Record Highlight := mkHighlight {
  content_snippet : str;
  risk_reason : str;
  risk_level : str;
  importance_score : Q;
  provenance_pointer : str;
}.

Record HighlightsResponse := mkHighlightsResponse {
  response_highlights : list Highlight;
  total_entries_analyzed : nat;
  risk_summary : list (str * nat);
}.

(** [HTTPException(status_code, detail)]; the detail is a fixed prefix
    followed by the text of the exception. *)
Record HTTPException := mkHTTPException {
  status_code : nat;
  detail_prefix : str;
  detail_cause : exception;
}.

(** Step 1: the loop that redacts every entry; [uuid i] is the
    identifier drawn for the entry of index [i]. *)
Fixpoint redact_entries (uuid : nat → str) (i : nat)
    (entries : list HighlightEntry) (store : gmap str RedactionMap)
    : list redacted_entry * list str * gmap str RedactionMap :=
  match entries with
  | [] => ([], [], store)
  | entry :: rest =>
      let '((redacted, rmap), store1) :=
        redact (uuid i) (entry_content entry) store in
      let '(redacted_rest, ids, store2) :=
        redact_entries uuid (S i) rest store1 in
      (mkRedactedEntry redacted (entry_type entry)
         (default [] (entry_created_at entry))
         (default [] (entry_id entry)) :: redacted_rest,
       id rmap :: ids, store2)
  end.

(** [for map_id in redaction_map_ids: text = de_redact(text, map_id)]. *)
Fixpoint de_redact_all (text : str) (map_ids : list str)
    (store : gmap str RedactionMap) : exn + str :=
  match map_ids with
  | [] => inr text
  | map_id :: rest =>
      match de_redact text map_id store with
      | inl e => inl e
      | inr text' => de_redact_all text' rest store
      end
  end.

(** The [finally] clause: every map of the request is released. *)
Definition cleanup_all (map_ids : list str) (store : gmap str RedactionMap)
    : gmap str RedactionMap :=
  fold_left (λ st map_id, (cleanup_redaction_map map_id st).2) map_ids store.

(** Step 3: the first entry, in order, whose label [Entry N] occurs in
    the provenance pointer and which has a non-empty [created_at] gives
    the highlight its [created_at]. *)
Fixpoint enrich_from (i : nat) (entries : list HighlightEntry)
    (provenance : str) (h : highlight_dict) : highlight_dict :=
  match entries with
  | [] => h
  | entry :: rest =>
      if contains (lit "Entry " ++ str_of_nat (i + 1)) provenance
         && negb (is_empty (default [] (entry_created_at entry)))
      then set_created_at h (default [] (entry_created_at entry))
      else enrich_from (S i) rest provenance h
  end.

Definition enrich (entries : list HighlightEntry) (h : highlight_dict)
    : highlight_dict :=
  enrich_from 0 entries (default [] (get_provenance_pointer h)) h.

(** Step 5 for one highlight: both texts pass through every map, then
    the [Highlight] model is built, which checks the score range. *)
Definition restore_highlight (map_ids : list str)
    (store : gmap str RedactionMap) (h : highlight_dict)
    : exception + Highlight :=
  match de_redact_all (default [] (get_content_snippet h)) map_ids store with
  | inl e => inl (LookupError e)
  | inr snippet =>
      match de_redact_all (default [] (get_risk_reason h)) map_ids store with
      | inl e => inl (LookupError e)
      | inr reason =>
          let score := default 0.5%Q (get_importance_score h) in
          if Qle_bool 0 score && Qle_bool score 1 then
            inr (mkHighlight snippet reason
                   (default (lit "medium") (get_risk_level h)) score
                   (default [] (get_provenance_pointer h)))
          else inl ValidationError
      end
  end.

Fixpoint restore_highlights (map_ids : list str)
    (store : gmap str RedactionMap) (hs : list highlight_dict)
    : exception + list Highlight :=
  match hs with
  | [] => inr []
  | h :: rest =>
      match restore_highlight map_ids store h with
      | inl e => inl e
      | inr r =>
          match restore_highlights map_ids store rest with
          | inl e => inl e
          | inr rs => inr (r :: rs)
          end
      end
  end.

(** [risk_summary[level] = risk_summary.get(level, 0) + 1] over the
    highlights. *)
Definition count_levels (hs : list Highlight) : list (str * nat) :=
  fold_left (λ summary h,
               dict_set summary (risk_level h)
                 (default 0 (dict_get summary (risk_level h)) + 1))
            hs [].

Section highlights_endpoint.
Context {Client : Type}.
Variable fromisoformat : str → option datetime.
Variable now_us : Z.
Variable SUPABASE_URL SUPABASE_SERVICE_ROLE_KEY : option str.
Variable create_client : str → str → Client.
Variable execute_query : Client → response.
(** [generate_highlights] of services/llm.py, which calls the model:
    the exception it raises or the validated highlights it returns. *)
Variable generate_highlights
  : list redacted_entry → exception + list highlight_dict.
Variable uuid : nat → str.

(** The body of the outer [try], after step 1. *)
Definition highlights_body (request : HighlightsRequest)
    (redacted_entries : list redacted_entry) (map_ids : list str)
    (store : gmap str RedactionMap) (_supabase_client : option Client)
    : (HTTPException + HighlightsResponse) * option Client :=
  match generate_highlights redacted_entries with
  | inl (RuntimeError msg) =>
      (inl (mkHTTPException 503
              (lit "LLM service temporarily unavailable: ")
              (RuntimeError msg)), _supabase_client)
  | inl (ValueError msg) =>
      (inl (mkHTTPException 500 (lit "Failed to parse LLM response: ")
              (ValueError msg)), _supabase_client)
  | inl ValidationError =>
      (inl (mkHTTPException 500 (lit "Failed to parse LLM response: ")
              ValidationError), _supabase_client)
  | inl e =>
      (inl (mkHTTPException 500 (lit "Highlight extraction failed: ") e),
       _supabase_client)
  | inr raw_highlights =>
      let enriched := map (enrich (request_entries request)) raw_highlights in
      let '(scored_highlights, global') :=
        batch_score fromisoformat now_us SUPABASE_URL
          SUPABASE_SERVICE_ROLE_KEY create_client execute_query
          enriched _supabase_client in
      match restore_highlights map_ids store scored_highlights with
      | inl e =>
          (inl (mkHTTPException 500 (lit "Highlight extraction failed: ") e),
           global')
      | inr result_highlights =>
          let sorted :=
            sort_by (λ h1 h2, Qle_bool (importance_score h1)
                                       (importance_score h2))
                    result_highlights in
          (inr (mkHighlightsResponse sorted
                  (length (request_entries request))
                  (count_levels sorted)), global')
      end
  end.

(** [highlights(request)], threading [_redaction_store] and the global
    Supabase client. *)
Definition highlights (request : HighlightsRequest)
    (store : gmap str RedactionMap) (_supabase_client : option Client)
    : (HTTPException + HighlightsResponse)
      * gmap str RedactionMap * option Client :=
  let '(redacted_entries, map_ids, store1) :=
    redact_entries uuid 0 (request_entries request) store in
  let '(result, global') :=
    highlights_body request redacted_entries map_ids store1
      _supabase_client in
  (result, cleanup_all map_ids store1, global').
End highlights_endpoint.

(** The delays of the first [k] rate-limited attempts counted from
    [attempt]: the base delay doubled at every attempt. *)
Fixpoint backoff (attempt k : nat) : list Q :=
  match k with
  | 0 => []
  | S k' =>
      (RETRY_BASE_DELAY * inject_Z (2 ^ Z.of_nat (attempt - 1)))%Q
      :: backoff (S attempt) k'
  end.

(** * Properties of the Map Store *)

(** C3. [de_redact] against an identifier that is not in the store
    raises [KeyError] (the design's NotFoundError), whatever the text;
    in particular it returns no string, so never the input unchanged. *)
Theorem de_redact_unknown_map (text map_id : str)
    (store : gmap str RedactionMap) :
  store !! map_id = None →
  (∃ msg, de_redact text map_id store = inl (KeyError msg))
  ∧ ∀ out, de_redact text map_id store ≠ inr out.
Proof.
  intros Hnone. unfold de_redact. rewrite Hnone.
  split; [eauto | discriminate].
Qed.

Lemma de_redact_unknown_map_witness :
  (∅ : gmap str RedactionMap) !! lit "unknown-id" = None
  ∧ ((∃ msg, de_redact (lit "<PERSON_1> called") (lit "unknown-id") ∅
             = inl (KeyError msg))
     ∧ ∀ out, de_redact (lit "<PERSON_1> called") (lit "unknown-id") ∅
              ≠ inr out).
Proof.
  split; [reflexivity | apply de_redact_unknown_map; reflexivity].
Defined.

(** C5. [cleanup_redaction_map] is total; it reports whether the
    identifier was present, leaves the store without it and with every
    other entry untouched, and a second release of the same identifier
    reports [False] and changes nothing. *)
Theorem release_idempotent (map_id : str) (store : gmap str RedactionMap) :
  let present := (cleanup_redaction_map map_id store).1 in
  let store' := (cleanup_redaction_map map_id store).2 in
  (present = true ↔ is_Some (store !! map_id))
  ∧ store' = delete map_id store
  ∧ store' !! map_id = None
  ∧ (∀ other, other ≠ map_id → store' !! other = store !! other)
  ∧ cleanup_redaction_map map_id store' = (false, store').
Proof.
  unfold cleanup_redaction_map.
  destruct (store !! map_id) as [m|] eqn:Hlook; simpl.
  - rewrite lookup_delete_eq. repeat split; eauto.
    intros other Hne. by rewrite lookup_delete_ne.
  - rewrite Hlook. repeat split; eauto.
    + discriminate.
    + intros [m Hm]. discriminate.
    + symmetry. by apply delete_id.
Qed.

(** * Blank input *)

Lemma lstrip_all_space (s : str) :
  Forall (λ c, is_space c = true) s → lstrip s = [].
Proof.
  induction 1 as [|c s Hc _ IH]; simpl; [done|]. by rewrite Hc.
Qed.

Lemma strip_all_space (s : str) :
  Forall (λ c, is_space c = true) s → strip s = [].
Proof.
  intros Hs. unfold strip, rstrip. by rewrite (lstrip_all_space s Hs).
Qed.

(** C6. On a text that is empty or holds only whitespace, [redact]
    returns the text itself with a newly created map that has no
    entries ([total_entities] is 0), registered in the store; the
    result is an ordinary return value. *)
Theorem redact_blank (fresh text : str) (store : gmap str RedactionMap) :
  text = [] ∨ Forall (λ c, is_space c = true) text →
  redact fresh text store
    = ((text, new_map fresh), <[fresh := new_map fresh]> store)
  ∧ total_entities (new_map fresh) = 0
  ∧ forward (new_map fresh) = [] ∧ reverse (new_map fresh) = [].
Proof.
  intros Hblank.
  assert (Hstrip : is_empty text || is_empty (strip text) = true).
  { destruct Hblank as [-> | Hall]; [done|].
    rewrite (strip_all_space text Hall). apply orb_true_r. }
  unfold redact. rewrite Hstrip. done.
Qed.

Lemma redact_blank_witness :
  (lit "  " = [] ∨ Forall (λ c, is_space c = true) (lit "  "))
  ∧ (redact (lit "m1") (lit "  ") ∅
       = ((lit "  ", new_map (lit "m1")),
          <[lit "m1" := new_map (lit "m1")]> ∅)
     ∧ total_entities (new_map (lit "m1")) = 0
     ∧ forward (new_map (lit "m1")) = []
     ∧ reverse (new_map (lit "m1")) = []).
Proof.
  assert (H : lit "  " = [] ∨ Forall (λ c, is_space c = true) (lit "  ")).
  { right. repeat constructor. }
  split; [exact H | exact (redact_blank (lit "m1") (lit "  ") ∅ H)].
Defined.

(** * Overlap resolution *)

Lemma overlaps_sym (a b : span) : overlaps a b = overlaps b a.
Proof. unfold overlaps. apply andb_comm. Qed.

Lemma overlaps_covers (a b : span) (p : nat) :
  covers a p → covers b p → overlaps a b = true.
Proof.
  unfold covers, overlaps. intros [] [].
  apply andb_true_intro. split; apply Nat.ltb_lt; lia.
Qed.

Lemma dedup_step_separated (filtered : list span) (m : span) :
  separated filtered → separated (dedup_step filtered m).
Proof.
  intros Hsep. unfold dedup_step.
  destruct (existsb (overlaps m) filtered) eqn:Hex; [done|].
  intros i j a b Hij Ha Hb.
  destruct (decide (j < length filtered)) as [Hj|Hj].
  - rewrite lookup_app_l in Ha by lia. rewrite lookup_app_l in Hb by lia.
    exact (Hsep i j a b Hij Ha Hb).
  - assert (Hlen : j = length filtered).
    { apply lookup_lt_Some in Hb. rewrite length_app in Hb. simpl in Hb. lia. }
    subst j. rewrite lookup_app_l in Ha by lia.
    rewrite lookup_app_r in Hb by lia.
    rewrite Nat.sub_diag in Hb. simpl in Hb. injection Hb as <-.
    destruct (overlaps m a) eqn:Hov; [|done].
    assert (existsb (overlaps m) filtered = true); [|congruence].
    apply existsb_exists. exists a. split; [|done].
    apply list_elem_of_In. by eapply list_elem_of_lookup_2.
Qed.

Lemma fold_dedup_separated (matches filtered : list span) :
  separated filtered → separated (fold_left dedup_step matches filtered).
Proof.
  revert filtered. induction matches as [|m matches IH]; simpl; [done|].
  intros filtered Hsep. apply IH. by apply dedup_step_separated.
Qed.

Lemma dedup_separated (matches : list span) : separated (dedup matches).
Proof.
  apply fold_dedup_separated. intros i j a b _ Ha. by destruct i.
Qed.

(** C4. The spans [redact] keeps for replacement are pairwise disjoint
    as half-open intervals: no offset of the text lies in two of them. *)
Theorem kept_spans_disjoint (text : str) (i j : nat) (a b : span) :
  i ≠ j →
  kept_spans text !! i = Some a →
  kept_spans text !! j = Some b →
  ∀ p, ¬ (covers a p ∧ covers b p).
Proof.
  intros Hij Ha Hb p [Hpa Hpb].
  pose proof (dedup_separated (sort_desc (collect_matches text))) as Hsep.
  pose proof (overlaps_covers a b p Hpa Hpb) as Hab.
  pose proof (overlaps_covers b a p Hpb Hpa) as Hba.
  destruct (decide (i < j)).
  - rewrite (Hsep i j a b) in Hba; [done|lia|done..].
  - rewrite (Hsep j i b a) in Hab; [done|lia|done..].
Qed.

(** * Strings *)

Lemma starts_with_spec (old s : str) :
  starts_with old s = true ↔ ∃ post, s = old ++ post.
Proof.
  revert s. induction old as [|a old IH]; intros s; simpl.
  - split; [intros _; by exists s | done].
  - destruct s as [|b s].
    + split; [done | intros [post Hpost]; discriminate].
    + rewrite andb_true_iff, bool_decide_eq_true, IH. split.
      * intros [-> [post ->]]. by exists post.
      * intros [post [= -> ->]]. split; [done | by exists post].
Qed.

Lemma contains_spec (sub s : str) :
  contains sub s = true ↔ ∃ pre post, s = pre ++ sub ++ post.
Proof.
  induction s as [|c s IH]; simpl.
  - rewrite orb_false_r, starts_with_spec. split.
    + intros [post ->]. by exists [], post.
    + intros (pre & post & H). symmetry in H.
      apply app_eq_nil in H as [-> H]. by exists post.
  - rewrite orb_true_iff, starts_with_spec, IH. split.
    + intros [[post ->] | (pre & post & ->)].
      * by exists [], post.
      * by exists (c :: pre), post.
    + intros ([|c' pre] & post & H).
      * left. by exists post.
      * right. injection H as -> ->. by exists pre, post.
Qed.


(** * The matcher returns non-empty slices of the text *)

Lemma run_le (cls : ascii → bool) (cap : option nat) (s : str) :
  run cls cap s ≤ length s.
Proof.
  revert cap. induction s as [|c s IH]; intros [[|k]|]; simpl; try lia;
    destruct (cls c); try lia.
  - specialize (IH (Some k)). lia.
  - specialize (IH None). lia.
Qed.

Lemma try_down_Some (k : nat → option nat) (lo n v : nat) :
  try_down k lo n = Some v → ∃ i, lo ≤ i ≤ n ∧ k i = Some v.
Proof.
  induction n as [|n IH]; simpl.
  - destruct (lo =? 0) eqn:Hlo; [|done].
    apply Nat.eqb_eq in Hlo. intros Hk. exists 0. split; [lia|done].
  - destruct (S n <? lo) eqn:Hlt; [done|]. apply Nat.ltb_ge in Hlt.
    destruct (k (S n)) as [r|] eqn:Hk.
    + intros [= <-]. exists (S n). split; [lia|done].
    + intros H. destruct (IH H) as (i & Hi & Hki). exists i. split; [lia|done].
Qed.

Lemma match_here_le (r : regex) (prev : option ascii) (s : str) (n : nat) :
  match_here r prev s = Some n → n ≤ length s.
Proof.
  revert prev s n. induction r as [|[|cls lo hi] r IH]; intros prev s n; simpl.
  - intros [= <-]. lia.
  - destruct (at_boundary _ _); [apply IH | done].
  - intros H. apply try_down_Some in H as (i & [_ Hi] & Hk).
    destruct (match_here r _ (drop i s)) as [x|] eqn:Hx; [|done].
    injection Hk as <-. apply IH in Hx. rewrite length_drop in Hx.
    pose proof (run_le cls hi s). lia.
Qed.

Lemma match_here_pos (r : regex) (prev : option ascii) (s : str) (n : nat) :
  consumes r = true → match_here r prev s = Some n → 0 < n.
Proof.
  revert prev s n. induction r as [|[|cls lo hi] r IH]; intros prev s n; simpl.
  - done.
  - intros Hc. destruct (at_boundary _ _); [by apply IH | done].
  - intros Hc H. apply try_down_Some in H as (i & [Hlo _] & Hk).
    destruct (match_here r _ (drop i s)) as [x|] eqn:Hx; [|done].
    injection Hk as <-. destruct lo as [|lo]; [|lia].
    simpl in Hc. apply IH in Hx; [lia | done].
Qed.

Lemma scan_spec (r : regex) (s : str) :
  consumes r = true →
  ∀ pos prev skip a b g,
    (a, b, g) ∈ scan r pos prev skip s →
    pos ≤ a ∧ a < b ∧ b ≤ pos + length s
    ∧ g = take (b - a) (drop (a - pos) s).
Proof.
  intros Hc. induction s as [|c s IH]; intros pos prev skip a b g.
  - destruct skip; simpl; [|by intros ?%elem_of_nil].
    destruct (match_here r prev []) as [n|] eqn:Hn; [|by intros ?%elem_of_nil].
    pose proof (match_here_le _ _ _ _ Hn). pose proof (match_here_pos _ _ _ _ Hc Hn).
    simpl in *. lia.
  - destruct skip as [|k]; simpl.
    + destruct (match_here r prev (c :: s)) as [n|] eqn:Hn.
      * pose proof (match_here_le _ _ _ _ Hn) as Hle.
        pose proof (match_here_pos _ _ _ _ Hc Hn) as Hpos. simpl in Hle.
        intros [Heq | Hin]%elem_of_cons.
        -- injection Heq as -> -> ->.
           replace (pos + n - pos) with n by lia.
           rewrite Nat.sub_diag. simpl. repeat split; lia || done.
        -- apply IH in Hin as (H1 & H2 & H3 & ->).
           replace (a - pos) with (S (a - S pos)) by lia. simpl.
           repeat split; lia || done.
      * intros Hin. apply IH in Hin as (H1 & H2 & H3 & ->).
        replace (a - pos) with (S (a - S pos)) by lia. simpl.
        repeat split; lia || done.
    + intros Hin. apply IH in Hin as (H1 & H2 & H3 & ->).
      replace (a - pos) with (S (a - S pos)) by lia. simpl.
      repeat split; lia || done.
Qed.

Lemma patterns_consume : forallb (λ '(_, r), consumes r) _PATTERNS = true.
Proof. reflexivity. Qed.

Lemma collect_matches_spec (text : str) (m : span) :
  m ∈ collect_matches text →
  wf_span text m ∧ entity_type m ∈ map fst _PATTERNS.
Proof.
  unfold collect_matches. rewrite list_elem_of_In, in_flat_map.
  intros ([ty r] & Hin & Hm).
  apply list_elem_of_In, list_elem_of_fmap in Hm as ([[a b] g] & -> & Hscan).
  pose proof patterns_consume as Hall. rewrite forallb_forall in Hall.
  specialize (Hall _ Hin). simpl in Hall.
  apply (scan_spec r text Hall) in Hscan as (H1 & H2 & H3 & ->).
  split.
  - unfold wf_span. simpl. rewrite Nat.sub_0_r. repeat split; lia || done.
  - apply list_elem_of_fmap. exists (ty, r).
    split; [done | by apply list_elem_of_In].
Qed.

(** * Sorting and de-duplication *)

Lemma insert_desc_elem (x y : span) (l : list span) :
  y ∈ insert_desc x l ↔ y = x ∨ y ∈ l.
Proof.
  induction l as [|z l IH]; simpl.
  - rewrite list_elem_of_singleton, elem_of_nil. tauto.
  - destruct (start z <=? start x); [by rewrite elem_of_cons|].
    rewrite !elem_of_cons, IH. tauto.
Qed.

Lemma sort_desc_elem (y : span) (l : list span) : y ∈ sort_desc l ↔ y ∈ l.
Proof.
  induction l as [|x l IH]; simpl; [done|].
  rewrite insert_desc_elem, elem_of_cons, IH. tauto.
Qed.

Lemma insert_desc_desc (x : span) (l : list span) :
  desc l → desc (insert_desc x l).
Proof.
  induction l as [|z l IH]; simpl; [done|]. intros [Hz Hl].
  destruct (start z <=? start x) eqn:Hzx.
  - apply Nat.leb_le in Hzx. simpl. split; [|done].
    constructor; [done|]. eapply Forall_impl; [exact Hz|]. simpl. lia.
  - apply Nat.leb_gt in Hzx. simpl. split; [|by apply IH].
    apply Forall_forall. intros y Hy. apply insert_desc_elem in Hy as [->|Hy].
    + lia.
    + by apply (proj1 (Forall_forall _ _) Hz).
Qed.

Lemma sort_desc_desc (l : list span) : desc (sort_desc l).
Proof. induction l; simpl; [done | by apply insert_desc_desc]. Qed.

Lemma desc_app_remove (l1 l2 : list span) (x : span) :
  desc (l1 ++ x :: l2) → desc (l1 ++ l2).
Proof.
  induction l1 as [|a l1 IH]; simpl.
  - by intros [_ ?].
  - intros [Ha Hl]. split; [|by apply IH].
    rewrite Forall_app in Ha |- *. destruct Ha as [? Ha].
    by apply Forall_cons in Ha as [_ ?].
Qed.

Lemma fold_dedup_desc (matches filtered : list span) :
  desc (filtered ++ matches) → desc (fold_left dedup_step matches filtered).
Proof.
  revert filtered. induction matches as [|m matches IH]; intros filtered; simpl.
  - by rewrite app_nil_r.
  - intros Hd. apply IH. unfold dedup_step.
    destruct (existsb _ _).
    + by apply desc_app_remove in Hd.
    + by rewrite <- app_assoc.
Qed.

Lemma fold_dedup_elem (matches filtered : list span) (x : span) :
  x ∈ fold_left dedup_step matches filtered → x ∈ filtered ∨ x ∈ matches.
Proof.
  revert filtered. induction matches as [|m matches IH]; intros filtered; simpl.
  - auto.
  - intros [Hx | Hx]%IH; [|right; by right].
    unfold dedup_step in Hx. destruct (existsb _ _); [by left|].
    apply elem_of_app in Hx as [Hx | Hx]; [by left|].
    apply list_elem_of_singleton in Hx as ->. right. left.
Qed.

Lemma kept_spans_elem (text : str) (m : span) :
  m ∈ kept_spans text → m ∈ collect_matches text.
Proof.
  unfold kept_spans, dedup.
  intros [Hm | Hm]%fold_dedup_elem; [by apply elem_of_nil in Hm|].
  exact (proj1 (sort_desc_elem _ _) Hm).
Qed.

Lemma kept_spans_wf (text : str) (m : span) :
  m ∈ kept_spans text →
  wf_span text m ∧ entity_type m ∈ map fst _PATTERNS.
Proof. intros Hm. by apply collect_matches_spec, kept_spans_elem. Qed.

Lemma separated_cons (a : span) (l : list span) :
  separated (a :: l) → Forall (λ b, overlaps b a = false) l ∧ separated l.
Proof.
  intros Hsep. split.
  - apply Forall_forall. intros b Hb.
    apply list_elem_of_lookup in Hb as [j Hj].
    apply (Hsep 0 (S j) a b); [lia | done | done].
  - intros i j x y Hij Hx Hy. apply (Hsep (S i) (S j) x y); [lia | done..].
Qed.

Lemma chained_intro (l : list span) (bound : nat) :
  desc l → separated l →
  Forall (λ m, start m < stop m ∧ stop m ≤ bound) l →
  chained bound l.
Proof.
  revert bound. induction l as [|a l IH]; intros bound; simpl; [done|].
  intros [Hhd Hdesc] [Hov Hsep]%separated_cons [[Ha1 Ha2] Hall]%Forall_cons.
  repeat split; [done..|]. apply IH; [done..|].
  apply Forall_forall. intros b Hb.
  rewrite Forall_forall in Hhd, Hov, Hall.
  specialize (Hhd b Hb). specialize (Hov b Hb). destruct (Hall b Hb) as [Hb1 _].
  split; [done|]. unfold overlaps in Hov.
  apply andb_false_iff in Hov as [Hov|Hov]; apply Nat.ltb_ge in Hov; lia.
Qed.

Lemma kept_spans_chained (text : str) : chained (length text) (kept_spans text).
Proof.
  apply chained_intro.
  - apply fold_dedup_desc. simpl. apply sort_desc_desc.
  - apply dedup_separated.
  - apply Forall_forall. intros m [(? & ? & _) _]%kept_spans_wf. done.
Qed.

Lemma chained_elem (l : list span) (bound : nat) (i j : nat) (a b : span) :
  chained bound l → i < j → l !! i = Some a → l !! j = Some b →
  stop b ≤ start a ∧ start b < start a.
Proof.
  revert bound i j. induction l as [|x l IH]; intros bound i j; [done|].
  simpl. intros (Hx1 & Hx2 & Hch) Hij Ha Hb.
  destruct j as [|j]; [lia|]. simpl in Hb. destruct i as [|i].
  - injection Ha as ->. clear IH Hij.
    revert Hch Hb. generalize (start a). clear. revert j.
    induction l as [|y l IH]; intros j n; [done|]. simpl.
    intros (Hy1 & Hy2 & Hch) Hb. destruct j as [|j].
    + injection Hb as ->. lia.
    + simpl in Hb. specialize (IH j (start y) Hch Hb). lia.
  - simpl in Ha. apply (IH (start x) i j); [done | lia | done..].
Qed.

(** * Dictionaries *)

Section dict_facts.
Context {K V : Type} `{EqDecision K}.
Implicit Types (d : list (K * V)) (k : K) (v : V).

Lemma dict_get_None d k : dict_get d k = None ↔ k ∉ map fst d.
Proof.
  induction d as [|[k' v'] d IH]; simpl.
  - split; [intros _; apply not_elem_of_nil | done].
  - rewrite not_elem_of_cons. destruct (decide (k = k')); [|rewrite IH; tauto].
    split; [done | by intros [? _]].
Qed.

Lemma dict_get_Some_elem d k v : dict_get d k = Some v → (k, v) ∈ d.
Proof.
  induction d as [|[k' v'] d IH]; simpl; [done|].
  destruct (decide (k = k')) as [->|].
  - intros [= ->]. apply list_elem_of_here.
  - intros H. apply list_elem_of_further. auto.
Qed.

Lemma dict_get_elem d k v :
  NoDup (map fst d) → (k, v) ∈ d → dict_get d k = Some v.
Proof.
  induction d as [|[k' v'] d IH]; simpl.
  - by intros _ ?%elem_of_nil.
  - intros [Hk' Hnd]%NoDup_cons [[= -> ->] | Hin]%elem_of_cons.
    + by rewrite decide_True.
    + rewrite decide_False; [by apply IH|].
      intros ->. apply Hk'. apply list_elem_of_fmap. by exists (k', v).
Qed.

Lemma dict_set_fresh d k v :
  dict_get d k = None → dict_set d k v = d ++ [(k, v)].
Proof.
  induction d as [|[k' v'] d IH]; simpl; [done|].
  destruct (decide (k = k')); [done|]. intros H. by rewrite IH.
Qed.

Lemma dict_get_set d k v k' :
  dict_get (dict_set d k v) k'
  = if decide (k' = k) then Some v else dict_get d k'.
Proof.
  induction d as [|[k0 v0] d IH]; simpl.
  - by destruct (decide (k' = k)).
  - destruct (decide (k = k0)) as [->|Hne]; simpl.
    + by destruct (decide (k' = k0)).
    + rewrite IH. destruct (decide (k' = k0)) as [->|]; [|done].
      by rewrite decide_False.
Qed.

Lemma dict_get_app_l d d' k v :
  dict_get d k = Some v → dict_get (d ++ d') k = Some v.
Proof.
  induction d as [|[k' v'] d IH]; simpl; [done|].
  by destruct (decide (k = k')).
Qed.
End dict_facts.

(** * Placeholders *)

Lemma string_of_uint_digits (d : Decimal.uint) :
  Forall (λ c, is_digit c = true) (lit (NilEmpty.string_of_uint d)).
Proof. induction d; simpl; constructor; done. Qed.

Lemma str_of_nat_digits (n : nat) :
  Forall (λ c, is_digit c = true) (str_of_nat n).
Proof. apply string_of_uint_digits. Qed.

Lemma str_of_nat_inj (n1 n2 : nat) : str_of_nat n1 = str_of_nat n2 → n1 = n2.
Proof.
  unfold str_of_nat, lit. intros H.
  apply (f_equal string_of_list_ascii) in H.
  rewrite !string_of_list_ascii_of_string in H.
  apply (f_equal NilEmpty.uint_of_string) in H.
  rewrite !NilEmpty.usu in H. injection H as H.
  apply (f_equal Nat.of_uint) in H. by rewrite !Unsigned.of_to in H.
Qed.

Lemma split_at_last {A} (x : A) (a a' b b' : list A) :
  x ∉ b → x ∉ b' → a ++ x :: b = a' ++ x :: b' → a = a' ∧ b = b'.
Proof.
  intros Hb Hb'. revert a'.
  induction a as [|c a IH]; intros [|c' a'] Heq; simpl in *.
  - by injection Heq as ->.
  - injection Heq as _ ->. destruct Hb. apply elem_of_app. right. left.
  - injection Heq as _ <-. destruct Hb'. apply elem_of_app. right. left.
  - injection Heq as -> Heq. by destruct (IH a' Heq) as [-> ->].
Qed.

Lemma placeholder_of_inj (ty1 ty2 : str) (n1 n2 : nat) :
  placeholder_of ty1 n1 = placeholder_of ty2 n2 → ty1 = ty2 ∧ n1 = n2.
Proof.
  unfold placeholder_of. simpl. intros [= H].
  assert (Hd : ∀ n, "_"%char ∉ str_of_nat n ++ [">"%char]).
  { intros n [Hin | Hin]%elem_of_app.
    - pose proof (str_of_nat_digits n) as Hall. rewrite Forall_forall in Hall.
      by specialize (Hall _ Hin).
    - by apply list_elem_of_singleton in Hin. }
  apply split_at_last in H as [-> H]; [|apply Hd..].
  split; [done|]. apply app_inj_tail in H as [H _]. by apply str_of_nat_inj.
Qed.

Lemma placeholder_of_wf (ty : str) (n : nat) :
  ok_type ty → wf_placeholder (placeholder_of ty n).
Proof.
  intros [Hlt Hgt]. exists (ty ++ "_"%char :: str_of_nat n).
  pose proof (str_of_nat_digits n) as Hall. rewrite Forall_forall in Hall.
  split; [|split].
  - unfold placeholder_of. simpl. by rewrite <- app_assoc.
  - intros [? | [[=] | Hin]%elem_of_cons]%elem_of_app; [done|].
    by specialize (Hall _ Hin).
  - intros [? | [[=] | Hin]%elem_of_cons]%elem_of_app; [done|].
    by specialize (Hall _ Hin).
Qed.

Lemma pattern_types_ok (ty : str) : ty ∈ map fst _PATTERNS → ok_type ty.
Proof.
  revert ty. apply Forall_forall.
  apply (bool_decide_unpack _). by vm_compute.
Qed.

(** * Numbering *)

Lemma numbered_keys (earlier : list str) (l : list (str * str)) :
  map fst (numbered earlier l) = map fst l.
Proof.
  revert earlier. induction l as [|[v ty] l IH]; intros earlier; simpl; [done|].
  by rewrite IH.
Qed.

Lemma numbered_app (earlier : list str) (l1 l2 : list (str * str)) :
  numbered earlier (l1 ++ l2)
  = numbered earlier l1 ++ numbered (earlier ++ map snd l1) l2.
Proof.
  revert earlier. induction l1 as [|[v ty] l1 IH]; intros earlier; simpl.
  - by rewrite app_nil_r.
  - by rewrite IH, <- app_assoc.
Qed.

Lemma numbered_lookup (earlier : list str) (l : list (str * str))
    (i : nat) (v ty : str) :
  l !! i = Some (v, ty) →
  numbered earlier l !! i
  = Some (v, placeholder_of ty (ordinal (earlier ++ take i (map snd l)) ty)).
Proof.
  revert earlier i. induction l as [|[v' ty'] l IH]; intros earlier i; [done|].
  destruct i as [|i]; simpl.
  - intros [= -> ->]. by rewrite app_nil_r.
  - intros H. rewrite (IH _ _ H). by rewrite <- app_assoc.
Qed.

Lemma ordinal_app_lt (e1 e2 : list str) (ty : str) :
  ordinal e1 ty ≤ ordinal (e1 ++ e2) ty
  ∧ ordinal (e1 ++ [ty] ++ e2) ty > ordinal e1 ty.
Proof.
  unfold ordinal. rewrite !filter_app, !length_app.
  rewrite filter_cons_True by done. simpl. lia.
Qed.

(** Ordinals issued after [earlier] exceed the counts in [earlier] and
    stay within the counts of everything numbered. *)
Lemma numbered_range (earlier : list str) (l : list (str * str)) (v q : str) :
  (v, q) ∈ numbered earlier l →
  ∃ ty n, q = placeholder_of ty n ∧ (v, ty) ∈ l
          ∧ ordinal earlier ty ≤ n
          ∧ n < ordinal (earlier ++ map snd l) ty.
Proof.
  revert earlier. induction l as [|[v' ty'] l IH]; intros earlier; simpl.
  - by intros ?%elem_of_nil.
  - intros [[= -> ->] | Hin]%elem_of_cons.
    + exists ty', (ordinal earlier ty'). repeat split; [left | lia |].
      pose proof (ordinal_app_lt earlier (map snd l) ty'). simpl in *. lia.
    + apply IH in Hin as (ty & n & -> & Hin & Hlo & Hhi).
      exists ty, n. rewrite <- app_assoc in Hhi.
      repeat split; [by right | | done].
      pose proof (ordinal_app_lt earlier [ty'] ty). lia.
Qed.

Lemma numbered_NoDup (earlier : list str) (l : list (str * str)) :
  NoDup (map snd (numbered earlier l)).
Proof.
  revert earlier. induction l as [|[v ty] l IH]; intros earlier; simpl.
  - constructor.
  - constructor; [|apply IH].
    intros ([v' q] & Hq & Hin)%list_elem_of_fmap. simpl in Hq. subst q.
    apply numbered_range in Hin as (ty' & n & Heq & _ & Hlo & _).
    apply placeholder_of_inj in Heq as [<- <-].
    pose proof (ordinal_app_lt earlier [] ty). simpl in *. lia.
Qed.

(** * The map built by [add] *)

Lemma map_state_empty (fresh : str) : map_state (new_map fresh) [].
Proof. repeat split; simpl; by try constructor. Qed.

Lemma add_state (m : RedactionMap) (fs : list (str * str)) (s : span) :
  map_state m fs →
  let '(p, m') := add m (value s) (entity_type s) in
  map_state m' (first_seen_step fs s)
  ∧ dict_get (forward m') (value s) = Some p
  ∧ id m' = id m
  ∧ ∀ v q, dict_get (forward m) v = Some q → dict_get (forward m') v = Some q.
Proof.
  intros (Hnd & Hfwd & Hrev & Hcnt). unfold add, first_seen_step.
  destruct (dict_get (forward m) (value s)) as [p|] eqn:Hget.
  - assert (value s ∈ map fst fs).
    { rewrite <- (numbered_keys [] fs), <- Hfwd.
      destruct (decide (value s ∈ map fst (forward m))) as [|Hn]; [done|].
      apply dict_get_None in Hn. congruence. }
    rewrite decide_True by done. done.
  - assert (Hnew : value s ∉ map fst fs).
    { rewrite <- (numbered_keys [] fs), <- Hfwd. by apply dict_get_None. }
    rewrite decide_False by done.
    set (ty := entity_type s). set (v := value s) in *.
    set (c := default 0 (dict_get (entity_counts m) ty)).
    set (p := placeholder_of ty (c + 1)).
    assert (Hp : p = placeholder_of ty (ordinal ([] ++ map snd fs) ty)).
    { unfold p, ordinal, c. simpl. rewrite Hcnt. f_equal. lia. }
    assert (Hfresh : dict_get (reverse m) p = None).
    { apply dict_get_None. rewrite Hrev, Hfwd.
      intros ([q v'] & Hq & Hin)%list_elem_of_fmap. simpl in Hq. subst q.
      apply list_elem_of_fmap in Hin as ([v0 q] & [= -> ->] & Hin).
      apply numbered_range in Hin as (ty' & n & Heq & _ & _ & Hhi).
      rewrite Hp in Heq. apply placeholder_of_inj in Heq as [<- <-]. lia. }
    simpl. split; [|split; [|split]].
    + repeat split; simpl.
      * rewrite map_app. simpl. apply NoDup_app. repeat split; [done| |].
        -- intros x Hx ->%list_elem_of_singleton. done.
        -- apply NoDup_singleton.
      * rewrite (dict_set_fresh _ _ _ Hget), numbered_app, Hfwd. simpl.
        by rewrite Hp.
      * rewrite (dict_set_fresh _ _ _ Hget), (dict_set_fresh _ _ _ Hfresh).
        rewrite map_app, Hrev. done.
      * intros ty'. rewrite dict_get_set, map_app, filter_app, length_app.
        simpl. destruct (decide (ty' = ty)) as [->|Hne].
        -- rewrite filter_cons_True by done. simpl. fold c.
           unfold c. rewrite Hcnt. done.
        -- rewrite filter_cons_False by done. simpl. rewrite Hcnt. lia.
    + rewrite dict_get_set. by rewrite decide_True.
    + done.
    + intros v' q Hv'. rewrite dict_get_set.
      destruct (decide (v' = v)) as [->|]; [congruence | done].
Qed.

(** * The replacement loop *)

Lemma first_seen_elem (ks : list span) (fs : list (str * str)) (v ty : str) :
  (v, ty) ∈ fold_left first_seen_step ks fs →
  (v, ty) ∈ fs ∨ ∃ s, s ∈ ks ∧ v = value s ∧ ty = entity_type s.
Proof.
  revert fs. induction ks as [|s ks IH]; intros fs; simpl; [auto|].
  intros [Hin | (s' & Hs' & Hv)]%IH.
  - unfold first_seen_step in Hin. destruct (decide _); [auto|].
    apply elem_of_app in Hin as [Hin | [= -> ->]%list_elem_of_singleton]; [auto|].
    right. exists s. split; [left | done].
  - right. exists s'. split; [by right | done].
Qed.

Lemma substitute_render (text : str) (ks : list span) :
  ∀ (m : RedactionMap) (red : str) (bound : nat) (T : list piece)
    (fs : list (str * str)),
    chained bound ks → Forall (wf_span text) ks → bound ≤ length text →
    map_state m fs →
    red = take bound text ++ render [] T →
    drop bound text = original_text T →
    (∀ v p, Slot v p ∈ T → dict_get (forward m) v = Some p) →
    ∃ T' b',
      (fold_left substitute_step ks (m, red)).2 = take b' text ++ render [] T'
      ∧ drop b' text = original_text T'
      ∧ (∀ v p, Slot v p ∈ T' →
           dict_get (forward (fold_left substitute_step ks (m, red)).1) v
           = Some p)
      ∧ map_state (fold_left substitute_step ks (m, red)).1
          (fold_left first_seen_step ks fs)
      ∧ id (fold_left substitute_step ks (m, red)).1 = id m.
Proof.
  induction ks as [|s ks IH];
    intros m red bound T fs Hch Hwf Hbound Hst Hred Horig Hslots.
  - exists T, bound. simpl. done.
  - simpl in Hch. destruct Hch as (Hs1 & Hs2 & Hch).
    apply Forall_cons in Hwf as [(_ & _ & Hval) Hwf].
    pose proof (add_state m fs s Hst) as Hadd.
    destruct (add m (value s) (entity_type s)) as [p m1] eqn:Hadd_eq.
    destruct Hadd as (Hst1 & Hp & Hid & Hmono).
    assert (Hstep : substitute_step (m, red) s
                    = (m1, take (start s) red ++ p ++ drop (stop s) red)).
    { unfold substitute_step. by rewrite Hadd_eq. }
    cbn [fold_left]. rewrite Hstep. clear Hstep Hadd_eq.
    set (mid := drop (stop s) (take bound text)).
    assert (Hlen : length (take bound text) = bound)
      by (rewrite length_take; lia).
    destruct (IH m1 (take (start s) red ++ p ++ drop (stop s) red) (start s)
                (Slot (value s) p :: Lit mid :: T) (first_seen_step fs s))
      as (T' & b' & H1 & H2 & H3 & H4 & H5); [done | done | lia | done | | | |].
    + rewrite Hred. rewrite take_app_le by lia. rewrite take_take.
      rewrite Nat.min_l by lia. rewrite drop_app_le by lia.
      done.
    + simpl. rewrite <- Horig, Hval. unfold mid.
      rewrite <- (take_drop (stop s - start s) (drop (start s) text)) at 1.
      f_equal. rewrite drop_drop.
      replace (start s + (stop s - start s)) with (stop s) by lia.
      rewrite <- (take_drop bound text) at 1.
      by rewrite drop_app_le by lia.
    + intros v q [[= -> ->] | [[=] | Hin]%elem_of_cons]%elem_of_cons; [done|].
      by apply Hmono, Hslots.
    + exists T', b'. split; [exact H1|]. split; [exact H2|].
      split; [exact H3|]. split; [exact H4|]. exact (eq_trans H5 Hid).
Qed.

(** * [str.replace] *)

Lemma starts_with_prefix (old s : str) :
  starts_with old s = true ↔ old `prefix_of` s.
Proof. apply starts_with_spec. Qed.

Lemma replace_from_skip (old new : str) (k : nat) (s : str) :
  old ≠ [] → replace_from old new k s = replace_from old new 0 (drop k s).
Proof.
  intros Hold. revert s. induction k as [|k IH]; intros s; [done|].
  destruct s as [|c s]; simpl; [|apply IH].
  destruct old; [done|]. done.
Qed.

Lemma replace_app_old (old new rest : str) :
  old ≠ [] → replace old new (old ++ rest) = new ++ replace old new rest.
Proof.
  intros Hold. unfold replace.
  assert (Hsw : starts_with old (old ++ rest) = true).
  { apply starts_with_prefix. by exists rest. }
  destruct old as [|a old]; [done|]. simpl in *. rewrite Hsw.
  rewrite replace_from_skip by done. rewrite Nat.sub_0_r.
  by rewrite drop_app_length.
Qed.

Lemma replace_cons_no (old new : str) (c : ascii) (s : str) :
  starts_with old (c :: s) = false →
  replace old new (c :: s) = c :: replace old new s.
Proof. intros H. unfold replace. simpl replace_from. by rewrite H. Qed.

Lemma replace_skip (old new u r : str) :
  (∀ k, k < length u → ¬ old `prefix_of` (drop k u ++ r)) →
  replace old new (u ++ r) = u ++ replace old new r.
Proof.
  induction u as [|c u IH]; intros Hno; [done|].
  simpl. rewrite replace_cons_no.
  - f_equal. apply IH. intros k Hk. apply (Hno (S k)). simpl. lia.
  - apply not_true_is_false. rewrite starts_with_prefix.
    apply (Hno 0). simpl. lia.
Qed.

Lemma replace_nil (old new : str) : old ≠ [] → replace old new [] = [].
Proof. by destruct old. Qed.

Lemma prefix_app_inv (p w r : str) :
  p `prefix_of` (w ++ r) →
  p `prefix_of` w ∨ ∃ p', p' ≠ [] ∧ p = w ++ p' ∧ p' `prefix_of` r.
Proof.
  revert p. induction w as [|c w IH]; intros p Hp.
  - destruct p as [|a p]; [left; by exists [] |].
    right. exists (a :: p). done.
  - destruct p as [|a p]; [left; by eexists |].
    simpl in Hp. apply prefix_cons_inv_1 in Hp as Ha. subst a.
    apply prefix_cons_inv_2 in Hp.
    destruct (IH p Hp) as [Hpre | (p' & Hne & -> & Hp')].
    + left. by apply prefix_cons.
    + right. by exists p'.
Qed.

(** * Placeholder-shaped strings *)

Lemma wf_placeholder_head (p : str) :
  wf_placeholder p → ∃ tl, p = "<"%char :: tl ∧ "<"%char ∉ tl.
Proof.
  intros (body & -> & Hlt & _). exists (body ++ [">"%char]). split; [done|].
  intros [? | [=]%list_elem_of_singleton]%elem_of_app. done.
Qed.

Lemma wf_placeholder_prefix_eq (p q rest : str) :
  wf_placeholder p → wf_placeholder q → p `prefix_of` (q ++ rest) → p = q.
Proof.
  intros (bp & -> & _ & Hp) (bq & -> & _ & Hq) Hpre.
  simpl in Hpre. apply prefix_cons_inv_2 in Hpre. f_equal.
  rewrite <- app_assoc in Hpre. simpl in Hpre.
  revert bq Hq Hpre. induction bp as [|c bp IH]; intros bq Hq Hpre; simpl in *.
  - destruct bq as [|c' bq]; [done|]. simpl in Hpre.
    apply prefix_cons_inv_1 in Hpre as <-.
    destruct Hq. left.
  - destruct bq as [|c' bq]; simpl in Hpre.
    + apply prefix_cons_inv_1 in Hpre as ->. destruct Hp. left.
    + apply prefix_cons_inv_1 in Hpre as Hc. subst c'.
      apply prefix_cons_inv_2 in Hpre. simpl. f_equal.
      apply IH; [| |done].
      * intros ?. apply Hp. by right.
      * intros ?. apply Hq. by right.
Qed.

(** Inside a placeholder, past its first character, no placeholder
    starts. *)
Lemma wf_placeholder_inner (p q rest : str) (k : nat) :
  wf_placeholder p → wf_placeholder q → 0 < k < length q →
  ¬ p `prefix_of` (drop k q ++ rest).
Proof.
  intros (tl & -> & _)%wf_placeholder_head (bq & -> & Hlt & _) [Hk Hlen] Hpre.
  destruct k as [|k]; [lia|]. simpl in *.
  assert (Hin : ∀ x, head (drop k (bq ++ [">"%char]) ++ rest) = Some x →
                     x ≠ "<"%char).
  { intros x Hx ->.
    destruct (drop k (bq ++ [">"%char])) as [|y l] eqn:Hdrop.
    - apply (f_equal length) in Hdrop. rewrite length_drop in Hdrop.
      simpl in Hdrop. lia.
    - simpl in Hx. injection Hx as ->.
      assert (Hmem : "<"%char ∈ drop k (bq ++ [">"%char])) by (rewrite Hdrop; left).
      apply (subseteq_drop k) in Hmem.
      apply elem_of_app in Hmem as [? | [=]%list_elem_of_singleton]. done. }
  destruct Hpre as [post Hpost]. rewrite Hpost in Hin.
  by apply (Hin "<"%char).
Qed.

(** * Restoring the placeholders of a rendered text *)

Lemma contains_app_r (p u r : str) :
  contains p (u ++ r) = false → contains p r = false.
Proof.
  intros H. apply not_true_is_false. intros Hr. apply not_true_iff_false in H.
  apply H. apply contains_spec. apply contains_spec in Hr as (pre & post & ->).
  exists (u ++ pre), post. by rewrite <- app_assoc.
Qed.

Lemma contains_no_prefix (p u r : str) (k : nat) :
  contains p (u ++ r) = false → ¬ p `prefix_of` (drop k u ++ r).
Proof.
  intros H [post Hpost]. apply not_true_iff_false in H. apply H.
  apply contains_spec. exists (take k u), post.
  rewrite <- Hpost, app_assoc. by rewrite take_drop.
Qed.

Lemma render_prefix_original (p : str) (restored : list str) (T : list piece) :
  wf_placeholder p →
  (∀ v q, Slot v q ∈ T → wf_placeholder q) →
  ∀ w, w ≠ [] →
       p `prefix_of` (w ++ render restored T) →
       p `prefix_of` (w ++ original_text T).
Proof.
  intros Hp. induction T as [|[s | v q] T IH]; intros Hslots w Hw Hpre.
  - done.
  - simpl in *. rewrite app_assoc in Hpre |- *.
    apply IH; [|by destruct w|done].
    intros v q Hin. apply (Hslots v q). by right.
  - assert (Hslots' : ∀ v q, Slot v q ∈ T → wf_placeholder q).
    { intros v' q' Hin. apply (Hslots v' q'). by right. }
    simpl in *. destruct (decide (q ∈ restored)).
    + rewrite app_assoc in Hpre |- *. apply IH; [done|by destruct w|done].
    + apply prefix_app_inv in Hpre as [Hpre | (p' & Hne & -> & Hp')].
      * by apply prefix_app_r.
      * exfalso. destruct (Hslots v q) as (bq & -> & _); [left|].
        destruct p' as [|c p']; [done|]. simpl in Hp'.
        apply prefix_cons_inv_1 in Hp' as ->.
        apply wf_placeholder_head in Hp as (tl & Heq & Hnot).
        destruct w as [|c w]; [done|]. simpl in Heq. injection Heq as -> <-.
        apply Hnot. apply elem_of_app. right. left.
Qed.

Lemma replace_render (p o : str) (restored : list str) (T : list piece) :
  wf_placeholder p →
  (∀ v q, Slot v q ∈ T → wf_placeholder q ∧ (q = p → v = o)) →
  contains p (original_text T) = false →
  replace p o (render restored T) = render (p :: restored) T.
Proof.
  intros Hp.
  assert (Hne : p ≠ []) by (destruct Hp as (? & -> & _); done).
  induction T as [|[s | v q] T IH]; intros Hslots Hno.
  - by apply replace_nil.
  - assert (Hslots' : ∀ v q, Slot v q ∈ T → wf_placeholder q ∧ (q = p → v = o)).
    { intros v q Hin. apply Hslots. by right. }
    simpl in *. rewrite replace_skip.
    + f_equal. apply IH; [done|]. by apply contains_app_r in Hno.
    + intros k Hk Hpre.
      apply (render_prefix_original p restored T Hp) in Hpre.
      * by apply (contains_no_prefix p s (original_text T) k) in Hno.
      * intros v q Hin. by apply (Hslots' v q).
      * intros Hnil. apply (f_equal length) in Hnil.
        rewrite length_drop in Hnil. simpl in Hnil. lia.
  - assert (Hslots' : ∀ v q, Slot v q ∈ T → wf_placeholder q ∧ (q = p → v = o)).
    { intros v' q' Hin. apply Hslots. by right. }
    destruct (Hslots v q) as [Hq Hvo]; [left|].
    assert (HnoT : contains p (original_text T) = false)
      by (by apply contains_app_r in Hno).
    simpl in *. destruct (decide (q ∈ restored)) as [Hin|Hnin].
    + rewrite decide_True by (by right). rewrite replace_skip.
      * f_equal. by apply IH.
      * intros k Hk Hpre.
        apply (render_prefix_original p restored T Hp) in Hpre.
        -- by apply (contains_no_prefix p v (original_text T) k) in Hno.
        -- intros v' q' Hin'. by apply (Hslots' v' q').
        -- intros Hnil. apply (f_equal length) in Hnil.
           rewrite length_drop in Hnil. simpl in Hnil. lia.
    + destruct (decide (q = p)) as [->|Hqp].
      * rewrite decide_True by left. rewrite replace_app_old by done.
        rewrite (Hvo eq_refl). f_equal. by apply IH.
      * rewrite decide_False by (intros [?|?]%elem_of_cons; done).
        rewrite replace_skip; [f_equal; by apply IH|].
        intros k Hk Hpre. destruct k as [|k].
        -- simpl in Hpre. by apply wf_placeholder_prefix_eq in Hpre.
        -- apply wf_placeholder_inner in Hpre; [done..|lia].
Qed.

Lemma restore_all (T : list piece) (R : list (str * str)) :
  (∀ v q, Slot v q ∈ T → wf_placeholder q) →
  Forall (λ '(p, o), wf_placeholder p
                     ∧ contains p (original_text T) = false
                     ∧ ∀ v, Slot v p ∈ T → v = o) R →
  ∀ restored,
    fold_left (λ result '(placeholder, original),
                 replace placeholder original result) R (render restored T)
    = render (rev (map fst R) ++ restored) T.
Proof.
  intros Hslots. induction 1 as [|[p o] R (Hp & Hno & Hpo) _ IH];
    intros restored; simpl; [done|].
  rewrite replace_render; [|done| |done].
  - rewrite IH. simpl. by rewrite <- app_assoc.
  - intros v q Hin. split; [by apply (Hslots v q)|].
    intros ->. by apply Hpo.
Qed.

Lemma render_all (restored : list str) (T : list piece) :
  (∀ v q, Slot v q ∈ T → q ∈ restored) →
  render restored T = original_text T.
Proof.
  induction T as [|[s | v q] T IH]; intros Hall; simpl; [done| |].
  - f_equal. apply IH. intros v q Hin. apply (Hall v q). by right.
  - rewrite decide_True by (apply (Hall v q); left).
    f_equal. apply IH. intros v' q' Hin. apply (Hall v' q'). by right.
Qed.

(** * Blank text has no match *)

Lemma is_space_cases (c : ascii) : is_space c = true → c ∈ space_chars.
Proof.
  destruct c as [[] [] [] [] [] [] [] []]; intros H;
    first [discriminate H | apply (bool_decide_unpack _); by vm_compute].
Qed.

Lemma lstrip_head (s : str) (c : ascii) (t : str) :
  lstrip s = c :: t → is_space c = false.
Proof.
  induction s as [|x s IH]; simpl; [done|].
  destruct (is_space x) eqn:Hx; [done|]. by intros [= <- _].
Qed.

Lemma lstrip_nil (s : str) : lstrip s = [] → Forall (λ c, is_space c = true) s.
Proof.
  induction s as [|x s IH]; simpl; [constructor|].
  destruct (is_space x) eqn:Hx; [|done]. intros H. constructor; auto.
Qed.

Lemma strip_nil (s : str) : strip s = [] → Forall (λ c, is_space c = true) s.
Proof.
  unfold strip, rstrip. intros H. apply lstrip_nil.
  apply (f_equal (@rev ascii)) in H. rewrite rev_involutive in H. simpl in H.
  apply lstrip_nil in H. destruct (lstrip s) as [|c t] eqn:Hs; [done|].
  apply lstrip_head in Hs. apply Forall_forall with (x := c) in H.
  - congruence.
  - apply list_elem_of_In, in_rev. rewrite rev_involutive. left. done.
Qed.

Lemma blank_all_space (text : str) :
  is_empty text || is_empty (strip text) = true →
  Forall (λ c, is_space c = true) text.
Proof.
  intros [H | H]%orb_true_iff.
  - destruct text; [constructor | done].
  - apply strip_nil. by destruct (strip text).
Qed.

Lemma match_here_blank (r : regex) (prev : option ascii) (s : str) :
  starts_nonspace r = true → Forall (λ c, is_space c = true) s →
  match_here r prev s = None.
Proof.
  intros Hr Hs.
  assert (Hrun : ∀ cls hi, forallb (λ c, negb (cls c)) space_chars = true →
                           run cls hi s = 0).
  { intros cls hi Hcls. destruct s as [|c s]; [by destruct hi as [[]|]|].
    apply Forall_cons in Hs as [Hc _]. apply is_space_cases in Hc.
    rewrite forallb_forall in Hcls.
    apply list_elem_of_In, Hcls, negb_true_iff in Hc.
    destruct hi as [[|k]|]; simpl; by rewrite ?Hc. }
  destruct r as [|[|cls [|lo] hi] r]; try done.
  - destruct r as [|[|cls [|lo] hi] r]; try done. simpl in *.
    destruct (at_boundary _ _); [|done]. by rewrite (Hrun cls hi Hr).
  - simpl in *. by rewrite (Hrun cls hi Hr).
Qed.

Lemma scan_blank (r : regex) (s : str) :
  starts_nonspace r = true → Forall (λ c, is_space c = true) s →
  ∀ pos prev, scan r pos prev 0 s = [].
Proof.
  intros Hr. induction 1 as [|c s Hc Hs IH]; intros pos prev.
  - simpl. by rewrite match_here_blank.
  - simpl. rewrite match_here_blank; [apply IH | done | by constructor].
Qed.

Lemma patterns_start_nonspace :
  forallb (λ '(_, r), starts_nonspace r) _PATTERNS = true.
Proof. by vm_compute. Qed.

Lemma collect_matches_blank (text : str) :
  is_empty text || is_empty (strip text) = true → collect_matches text = [].
Proof.
  intros Hb%blank_all_space. unfold collect_matches.
  pose proof patterns_start_nonspace as Hall.
  induction _PATTERNS as [|[ty r] ps IH]; [done|].
  simpl in Hall. apply andb_true_iff in Hall as [Hr Hps].
  simpl. unfold finditer. rewrite scan_blank by done. simpl. by apply IH.
Qed.

(** * What [redact] returns *)

Lemma NoDup_snd_inj {A B} (l : list (A * B)) (a b : A) (p : B) :
  NoDup (map snd l) → (a, p) ∈ l → (b, p) ∈ l → a = b.
Proof.
  induction l as [|[x q] l IH]; simpl.
  - by intros _ ?%elem_of_nil.
  - intros [Hq Hnd]%NoDup_cons Ha Hb.
    assert (Hfresh : ∀ c, (c, q) ∉ l).
    { intros c Hc. apply Hq. apply list_elem_of_fmap. by exists (c, q). }
    apply elem_of_cons in Ha as [Ha | Ha];
      apply elem_of_cons in Hb as [Hb | Hb].
    + congruence.
    + injection Ha as -> ->. by apply Hfresh in Hb.
    + injection Hb as -> ->. by apply Hfresh in Ha.
    + by apply IH.
Qed.

Lemma first_seen_types (text : str) (v ty : str) :
  (v, ty) ∈ first_seen (kept_spans text) → ty ∈ map fst _PATTERNS.
Proof.
  intros [Hin | (s & Hs & -> & ->)]%first_seen_elem.
  - by apply elem_of_nil in Hin.
  - by apply kept_spans_wf in Hs as [_ ?].
Qed.

(** The redacted text and the input are two renderings of one template
    whose slots are entries of the returned map, and the map holds the
    values of the kept spans in the order the loop met them. *)
Lemma redact_render (fresh text : str) (store : gmap str RedactionMap) :
  let red := (redact fresh text store).1.1 in
  let m := (redact fresh text store).1.2 in
  (redact fresh text store).2 = <[id m := m]> store
  ∧ id m = fresh
  ∧ map_state m (first_seen (kept_spans text))
  ∧ ∃ T, red = render [] T ∧ text = original_text T
         ∧ ∀ v p, Slot v p ∈ T → dict_get (forward m) v = Some p.
Proof.
  assert (Hempty : collect_matches text = [] →
            map_state (new_map fresh) (first_seen (kept_spans text))
            ∧ ∃ T, text = render [] T ∧ text = original_text T
                   ∧ ∀ v p, Slot v p ∈ T
                            → dict_get (forward (new_map fresh)) v = Some p).
  { intros Hnone. unfold kept_spans. rewrite Hnone.
    split; [apply map_state_empty|].
    exists [Lit text]. simpl. rewrite app_nil_r.
    split; [done|]. split; [done|].
    intros v p Hin. apply elem_of_cons in Hin as [Heq | Hin];
      [discriminate | by apply elem_of_nil in Hin]. }
  unfold redact.
  destruct (is_empty text || is_empty (strip text)) eqn:Hblank.
  { apply collect_matches_blank in Hblank. simpl. auto. }
  case_bool_decide; [simpl; auto|].
  destruct (substitute_render text (kept_spans text) (new_map fresh) text
              (length text) [] [])
    as (T & b & H1 & H2 & H3 & H4 & H5).
  - apply kept_spans_chained.
  - apply Forall_forall. intros s Hs. by apply kept_spans_wf in Hs as [? _].
  - done.
  - apply map_state_empty.
  - simpl. by rewrite firstn_all, app_nil_r.
  - simpl. by rewrite drop_all.
  - intros v p Hin. by apply elem_of_nil in Hin.
  - fold (kept_spans text). unfold substitute.
    destruct (fold_left substitute_step (kept_spans text) (new_map fresh, text))
      as [m red] eqn:Hfold. simpl in *.
    split; [done|]. split; [done|]. split; [done|].
    exists (Lit (take b text) :: T).
    simpl. rewrite <- H2, take_drop.
    split; [done|]. split; [done|].
    intros v p [[=] | Hin]%elem_of_cons. by apply H3.
Qed.

Lemma map_state_entry (m : RedactionMap) (text : str) (v p : str) :
  map_state m (first_seen (kept_spans text)) →
  (v, p) ∈ forward m → wf_placeholder p.
Proof.
  intros (_ & Hfwd & _) Hin. rewrite Hfwd in Hin.
  apply numbered_range in Hin as (ty & n & -> & Hin & _).
  apply placeholder_of_wf, pattern_types_ok. by apply (first_seen_types text v).
Qed.

Lemma map_state_reverse (m : RedactionMap) (fs : list (str * str)) (v p : str) :
  map_state m fs → (p, v) ∈ reverse m ↔ (v, p) ∈ forward m.
Proof.
  intros (_ & _ & -> & _). rewrite list_elem_of_fmap. split.
  - by intros ([v' p'] & [= -> ->] & Hin).
  - intros Hin. by exists (v, p).
Qed.

(** C1 (as amended). When none of the placeholders issued by the call
    occurs in the input text, [de_redact] on the redacted text restores
    the input exactly, for as long as the map is in the store; and the
    map is in the store when [redact] returns. *)
Theorem round_trip (fresh text : str) (store : gmap str RedactionMap) :
  let redacted := (redact fresh text store).1.1 in
  let m := (redact fresh text store).1.2 in
  (∀ p o, (p, o) ∈ reverse m → contains p text = false) →
  (redact fresh text store).2 !! id m = Some m
  ∧ ∀ store', store' !! id m = Some m →
              de_redact redacted (id m) store' = inr text.
Proof.
  intros redacted m Hfree.
  destruct (redact_render fresh text store)
    as (Hstore & _ & Hst & T & Hred & Htext & Hslots).
  fold m in Hstore, Hslots, Hst. fold redacted in Hred.
  set (fs := first_seen (kept_spans text)) in *.
  split; [rewrite Hstore; apply lookup_insert_eq|].
  intros store' Hlook. unfold de_redact. rewrite Hlook. f_equal.
  assert (Hnd : NoDup (map snd (forward m))).
  { destruct Hst as (_ & -> & _). apply numbered_NoDup. }
  assert (Hwf : ∀ v q, Slot v q ∈ T → wf_placeholder q).
  { intros v q Hin. apply (map_state_entry m text v q Hst).
    by apply dict_get_Some_elem, Hslots. }
  rewrite Hred, restore_all; [| done |].
  - transitivity (original_text T); [|by symmetry]. rewrite app_nil_r.
    apply render_all. intros v q Hin.
    rewrite list_elem_of_In, <- in_rev, <- list_elem_of_In, list_elem_of_fmap.
    exists (q, v). split; [done|].
    apply (map_state_reverse m fs v q Hst). by apply dict_get_Some_elem, Hslots.
  - apply Forall_forall. intros [p o] Hin.
    pose proof (proj1 (map_state_reverse m fs o p Hst) Hin) as Hfw.
    split; [by apply (map_state_entry m text o p Hst)|].
    split; [rewrite <- Htext; by apply (Hfree p o)|].
    intros v Hv. apply (NoDup_snd_inj (forward m) v o p Hnd); [|done].
    by apply dict_get_Some_elem, Hslots.
Qed.

(** * Numbering of the placeholders *)

Lemma first_seen_covers (ks : list span) (fs : list (str * str)) (s : span) :
  s ∈ ks → value s ∈ map fst (fold_left first_seen_step ks fs).
Proof.
  assert (Hkeep : ∀ ks fs v,
            v ∈ map fst fs → v ∈ map fst (fold_left first_seen_step ks fs)).
  { clear. induction ks as [|s ks IH]; intros fs v Hv; simpl; [done|].
    apply IH. unfold first_seen_step. destruct (decide _); [done|].
    rewrite map_app. apply elem_of_app. by left. }
  revert fs. induction ks as [|s' ks IH]; intros fs Hin.
  - by apply elem_of_nil in Hin.
  - simpl. apply elem_of_cons in Hin as [-> | Hin]; [|by apply IH].
    apply Hkeep. unfold first_seen_step. destruct (decide _); [done|].
    rewrite map_app. apply elem_of_app. right. left.
Qed.

Lemma ordinal_take_lt (l : list str) (i j : nat) (ty : str) :
  i < j → l !! i = Some ty → ordinal (take i l) ty < ordinal (take j l) ty.
Proof.
  intros Hij Hi.
  assert (Hsplit : take j l = take i l ++ [ty] ++ take (j - S i) (drop (S i) l)).
  { rewrite <- (take_drop i (take j l)), take_take, Nat.min_l by lia.
    f_equal. rewrite skipn_firstn_comm.
    rewrite (drop_S l ty i Hi). by replace (j - i) with (S (j - S i)) by lia. }
  rewrite Hsplit. apply ordinal_app_lt.
Qed.

(** C2 (as amended). [redact] replaces the kept spans from the end of
    the text towards its start, and numbers in that order: the map has
    one placeholder per distinct value, a repeated value reusing it, and
    within a category the ordinal N of a value is one more than the
    number of distinct values of that category met before it, so it
    grows with the order in which the values are first met. *)
Theorem numbering_follows_processing_order (fresh text : str)
    (store : gmap str RedactionMap) :
  let m := (redact fresh text store).1.2 in
  let ks := kept_spans text in
  let firsts := first_seen ks in
  (∀ i j a b, i < j → ks !! i = Some a → ks !! j = Some b → start b < start a)
  ∧ NoDup (map fst firsts)
  ∧ (∀ s, s ∈ ks → value s ∈ map fst firsts)
  ∧ map fst (forward m) = map fst firsts
  ∧ (∀ i v ty, firsts !! i = Some (v, ty) →
       forward m !! i
       = Some (v, placeholder_of ty (ordinal (take i (map snd firsts)) ty))
       ∧ dict_get (forward m) v
         = Some (placeholder_of ty (ordinal (take i (map snd firsts)) ty)))
  ∧ (∀ i j v1 v2 ty, i < j →
       firsts !! i = Some (v1, ty) → firsts !! j = Some (v2, ty) →
       ordinal (take i (map snd firsts)) ty
       < ordinal (take j (map snd firsts)) ty).
Proof.
  intros m ks firsts.
  destruct (redact_render fresh text store) as (_ & _ & Hst & _).
  fold m ks firsts in Hst. destruct Hst as (Hnd & Hfwd & _ & _).
  split; [|split; [done|split; [|split; [|split]]]].
  - intros i j a b Hij Ha Hb.
    by destruct (chained_elem ks _ i j a b (kept_spans_chained text) Hij Ha Hb).
  - intros s Hs. by apply first_seen_covers.
  - by rewrite Hfwd, numbered_keys.
  - intros i v ty Hi.
    assert (Hlook : forward m !! i
              = Some (v, placeholder_of ty
                           (ordinal (take i (map snd firsts)) ty))).
    { rewrite Hfwd. by rewrite (numbered_lookup [] firsts i v ty Hi). }
    split; [done|]. apply dict_get_elem.
    + by rewrite Hfwd, numbered_keys.
    + by apply list_elem_of_lookup_2 in Hlook.
  - intros i j v1 v2 ty Hij Hi Hj. apply ordinal_take_lt; [done|].
    by rewrite list_lookup_fmap, Hi.
Qed.

(** A text in which the value that appears first is numbered second:
    [81234567], met first from the end, takes ordinal 1. *)
Lemma numbering_not_in_text_order :
  ¬ numbered_in_text_order (lit "m1") (lit "Call 91234567 or 81234567").
Proof.
  set (a := Span 5 13 (lit "PHONE_NUMBER") (lit "91234567")).
  set (b := Span 17 25 (lit "PHONE_NUMBER") (lit "81234567")).
  assert (Hks : kept_spans (lit "Call 91234567 or 81234567") = [b; a])
    by (by vm_compute).
  intros H. unfold numbered_in_text_order in H.
  specialize (H a b (lit "PHONE_NUMBER") 2 1). rewrite Hks in H.
  assert (2 < 1); [|lia]. apply H.
  - right. left.
  - left.
  - intros c [-> | [-> | Hc%elem_of_nil]%elem_of_cons]%elem_of_cons;
      [discriminate | simpl; lia | done].
  - intros c [-> | [-> | Hc%elem_of_nil]%elem_of_cons]%elem_of_cons;
      [simpl; lia | discriminate | done].
  - simpl. lia.
  - by vm_compute.
  - by vm_compute.
Qed.

(** A text that already holds a placeholder-shaped token: the token is
    taken for a slot and replaced as well. *)
Lemma round_trip_fails_on_placeholder_text :
  let text := lit "<PHONE_NUMBER_1> 91234567" in
  let redacted := (redact (lit "m1") text ∅).1.1 in
  let m := (redact (lit "m1") text ∅).1.2 in
  let store := (redact (lit "m1") text ∅).2 in
  store !! id m = Some m
  ∧ redacted = lit "<PHONE_NUMBER_1> <PHONE_NUMBER_1>"
  ∧ de_redact redacted (id m) store = inr (lit "91234567 91234567")
  ∧ de_redact redacted (id m) store ≠ inr text.
Proof.
  assert (Hred : redact (lit "m1") (lit "<PHONE_NUMBER_1> 91234567") ∅
            = ((lit "<PHONE_NUMBER_1> <PHONE_NUMBER_1>",
                mkRedactionMap (lit "m1")
                  [(lit "91234567", lit "<PHONE_NUMBER_1>")]
                  [(lit "<PHONE_NUMBER_1>", lit "91234567")]
                  [(lit "PHONE_NUMBER", 1)]),
               <[lit "m1" :=
                   mkRedactionMap (lit "m1")
                     [(lit "91234567", lit "<PHONE_NUMBER_1>")]
                     [(lit "<PHONE_NUMBER_1>", lit "91234567")]
                     [(lit "PHONE_NUMBER", 1)]]> ∅)).
  { unfold redact.
    replace (is_empty (lit "<PHONE_NUMBER_1> 91234567")
             || is_empty (strip (lit "<PHONE_NUMBER_1> 91234567")))
      with false by (by vm_compute).
    replace (collect_matches (lit "<PHONE_NUMBER_1> 91234567"))
      with [Span 17 25 (lit "PHONE_NUMBER") (lit "91234567")]
      by (by vm_compute).
    rewrite bool_decide_eq_false_2 by done. reflexivity. }
  cbv zeta. rewrite Hred. cbn [fst snd id].
  split; [apply lookup_insert_eq|]. split; [done|].
  unfold de_redact. rewrite lookup_insert_eq. cbn [reverse fold_left].
  split; [by vm_compute|]. intros H. vm_compute in H. discriminate H.
Qed.

Lemma kept_spans_disjoint_witness :
  let text := lit "Call John at 91234567, NRIC S1234567A" in
  let a := Span 28 37 (lit "SG_NRIC") (lit "S1234567A") in
  let b := Span 13 21 (lit "PHONE_NUMBER") (lit "91234567") in
  0 ≠ 1 ∧ kept_spans text !! 0 = Some a ∧ kept_spans text !! 1 = Some b
  ∧ ∀ p, ¬ (covers a p ∧ covers b p).
Proof.
  intros text a b.
  assert (H0 : 0 ≠ 1) by lia.
  assert (Ha : kept_spans text !! 0 = Some a) by (by vm_compute).
  assert (Hb : kept_spans text !! 1 = Some b) by (by vm_compute).
  split; [exact H0|]. split; [exact Ha|]. split; [exact Hb|].
  exact (kept_spans_disjoint text 0 1 a b H0 Ha Hb).
Defined.

Lemma round_trip_witness :
  let text := lit "Call John at 91234567, NRIC S1234567A" in
  let redacted := (redact (lit "m1") text ∅).1.1 in
  let m := (redact (lit "m1") text ∅).1.2 in
  (∀ p o, (p, o) ∈ reverse m → contains p text = false)
  ∧ (redact (lit "m1") text ∅).2 !! id m = Some m
  ∧ ∀ store', store' !! id m = Some m →
              de_redact redacted (id m) store' = inr text.
Proof.
  intros text redacted m.
  assert (Hfree : ∀ p o, (p, o) ∈ reverse m → contains p text = false).
  { assert (Hrev : reverse m = [(lit "<SG_NRIC_1>", lit "S1234567A");
                                (lit "<PHONE_NUMBER_1>", lit "91234567")])
      by (by vm_compute).
    rewrite Hrev. intros p o Hin.
    apply elem_of_cons in Hin as [Heq | Hin].
    - injection Heq as -> _. by vm_compute.
    - apply elem_of_cons in Hin as [Heq | Hin].
      + injection Heq as -> _. by vm_compute.
      + by apply elem_of_nil in Hin. }
  split; [exact Hfree|]. exact (round_trip (lit "m1") text ∅ Hfree).
Defined.
Local Open Scope Q_scope.

Lemma py_max_le (a b : Q) : a <= py_max a b ∧ b <= py_max a b.
Proof.
  unfold py_max. destruct (Qle_bool b a) eqn:H.
  - apply Qle_bool_iff in H. split; [apply Qle_refl | done].
  - split; [|apply Qle_refl].
    destruct (Qlt_le_dec a b) as [Hlt|Hle]; [by apply Qlt_le_weak|].
    apply Qle_bool_iff in Hle. congruence.
Qed.

Lemma py_max_cases (a b : Q) : py_max a b = a ∨ py_max a b = b.
Proof. unfold py_max. destruct (Qle_bool b a); auto. Qed.

Lemma py_min_le (a b : Q) : py_min a b <= a ∧ py_min a b <= b.
Proof.
  unfold py_min. destruct (Qle_bool a b) eqn:H.
  - apply Qle_bool_iff in H. split; [apply Qle_refl | done].
  - split; [|apply Qle_refl].
    destruct (Qlt_le_dec b a) as [Hlt|Hle]; [by apply Qlt_le_weak|].
    apply Qle_bool_iff in Hle. congruence.
Qed.

Lemma py_min_cases (a b : Q) : py_min a b = a ∨ py_min a b = b.
Proof. unfold py_min. destruct (Qle_bool a b); auto. Qed.

Lemma py_max_mono (a x y : Q) : x <= y → py_max a x <= py_max a y.
Proof.
  intros Hxy. destruct (py_max_le a y) as [Ha Hy].
  destruct (py_max_cases a x) as [-> | ->]; [done|].
  by apply Qle_trans with y.
Qed.

Lemma py_min_mono (a x y : Q) : x <= y → py_min a x <= py_min a y.
Proof.
  intros Hxy. destruct (py_min_le a x) as [Ha Hx].
  destruct (py_min_cases a y) as [-> | ->]; [done|].
  by apply Qle_trans with x.
Qed.

(** The clamp [max(0.0, min(1.0, score))] lands in [0, 1]. *)
Lemma clamp_bounds (x : Q) : 0 <= py_max 0 (py_min 1 x) <= 1.
Proof.
  split; [apply py_max_le|].
  destruct (py_max_cases 0 (py_min 1 x)) as [-> | ->]; [done|].
  apply py_min_le.
Qed.

Lemma round_half_even_floor (x : Q) :
  (Qfloor x <= round_half_even x <= Qfloor x + 1)%Z.
Proof.
  unfold round_half_even.
  destruct (Qcompare _ _); [destruct (Z.even _)|..]; lia.
Qed.

Lemma round_half_even_Z (z : Z) : round_half_even (inject_Z z) = z.
Proof.
  unfold round_half_even. rewrite Qfloor_Z.
  destruct (Qcompare_spec (inject_Z z - inject_Z z) 0.5); [lra | done | lra].
Qed.

Lemma round_half_even_mono (x y : Q) :
  x <= y → (round_half_even x <= round_half_even y)%Z.
Proof.
  intros Hxy. pose proof (Qfloor_resp_le x y Hxy) as Hf.
  pose proof (round_half_even_floor x). pose proof (round_half_even_floor y).
  destruct (decide (Qfloor x = Qfloor y)) as [Heq|Hne]; [|lia].
  unfold round_half_even. rewrite <- Heq.
  destruct (Qcompare_spec (x - inject_Z (Qfloor x)) 0.5);
    destruct (Qcompare_spec (y - inject_Z (Qfloor x)) 0.5);
    try (destruct (Z.even (Qfloor x))); try lia; lra.
Qed.

(** The rounded value is within half a unit of its argument. *)
Lemma round_half_even_near (x : Q) :
  Qabs (inject_Z (round_half_even x) - x) <= 1 # 2.
Proof.
  pose proof (Qfloor_le x) as Hlo. pose proof (Qlt_floor x) as Hhi.
  assert (E : inject_Z (Qfloor x + 1) == inject_Z (Qfloor x) + 1)
    by (rewrite inject_Z_plus; reflexivity).
  apply Qabs_Qle_condition. unfold round_half_even.
  destruct (Qcompare_spec (x - inject_Z (Qfloor x)) 0.5).
  - destruct (Z.even (Qfloor x)); [|rewrite E]; split; lra.
  - split; lra.
  - rewrite E. split; lra.
Qed.

Lemma Qmake_1000_le (a b : Z) : (a <= b)%Z → a # 1000 <= b # 1000.
Proof. intros H. unfold Qle. simpl. lia. Qed.

Lemma round3_mono (x y : Q) : x <= y → round3 x <= round3 y.
Proof.
  intros Hxy. apply Qmake_1000_le, round_half_even_mono. lra.
Qed.

Lemma round3_bounds (x : Q) : 0 <= x <= 1 → 0 <= round3 x <= 1.
Proof.
  intros [H0 H1].
  assert (E0 : round3 0 = 0 # 1000) by reflexivity.
  assert (E1 : round3 1 = 1000 # 1000) by reflexivity.
  pose proof (round3_mono 0 x H0) as L0. pose proof (round3_mono x 1 H1) as L1.
  rewrite E0 in L0. rewrite E1 in L1. split.
  - eapply Qle_trans; [|exact L0]. done.
  - eapply Qle_trans; [exact L1|]. done.
Qed.

Lemma round3_near (x : Q) : Qabs (round3 x - x) <= 1 # 2000.
Proof.
  pose proof (round_half_even_near (x * 1000)) as H.
  apply Qabs_Qle_condition in H. apply Qabs_Qle_condition.
  unfold round3.
  assert (E : round_half_even (x * 1000) # 1000
              == inject_Z (round_half_even (x * 1000)) * (1 # 1000)).
  { unfold Qeq. simpl. lia. }
  rewrite E. split; lra.
Qed.

Lemma composite_bounds (recency risk unresolved learned : Q) :
  0 <= composite recency risk unresolved learned <= 1.
Proof. unfold composite. apply round3_bounds, clamp_bounds. Qed.

Lemma composite_mono_risk (recency risk1 risk2 unresolved learned : Q) :
  risk1 <= risk2 →
  composite recency risk1 unresolved learned
  <= composite recency risk2 unresolved learned.
Proof.
  intros H. unfold composite.
  apply round3_mono, py_max_mono, py_min_mono.
  unfold RECENCY_WEIGHT, RISK_LEVEL_WEIGHT, UNRESOLVED_ACTION_WEIGHT,
    LEARNED_WEIGHT. lra.
Qed.

(** * Properties of the importance scorer *)

Lemma recency_of_age_antitone (a b : Q) :
  a <= b → recency_of_age b <= recency_of_age a.
Proof.
  intros Hab. unfold recency_of_age.
  repeat match goal with
  | |- context [Qle_bool ?x ?y] =>
      let H := fresh "H" in
      destruct (Qle_bool x y) eqn:H;
      [apply Qle_bool_iff in H
      |assert (¬ x <= y) by (rewrite <- Qle_bool_iff; congruence); clear H]
  end; try done; lra.
Qed.

Section importance_properties.
Context {Client : Type}.
Variable fromisoformat : str → option datetime.
Variable now_us : Z.
Variable SUPABASE_URL SUPABASE_SERVICE_ROLE_KEY : option str.
Variable create_client : str → str → Client.
Variable execute_query : Client → response.

Local Abbreviation recency_score := (_compute_recency_score fromisoformat now_us).
Local Abbreviation learned_score :=
  (_compute_learned_score SUPABASE_URL SUPABASE_SERVICE_ROLE_KEY
     create_client execute_query).
Local Abbreviation score :=
  (compute_importance_score fromisoformat now_us SUPABASE_URL
     SUPABASE_SERVICE_ROLE_KEY create_client execute_query).

Lemma score_unfold (content risk_level : str)
    (created_at : option timestamp) (g : option Client) :
  (score content risk_level created_at g).1
  = composite (recency_score created_at) (_compute_risk_score risk_level)
      (_compute_unresolved_score content) (learned_score content g).1.
Proof.
  unfold compute_importance_score.
  by destruct (learned_score content g).
Qed.

Lemma age_hours_antitone (d1 d2 : datetime) :
  (instant_us d1 <= instant_us d2)%Z →
  age_hours now_us d2 <= age_hours now_us d1.
Proof.
  intros H. unfold age_hours. apply py_max_mono.
  assert (inject_Z (now_us - instant_us d2)
          <= inject_Z (now_us - instant_us d1)).
  { rewrite <- Zle_Qle. lia. }
  unfold Qdiv. by do 2 (apply Qmult_le_compat_r; [|done]).
Qed.


(** C8. With content, timestamp, clock and history unchanged, the
    score at risk level "critical" is at least the score at "low";
    and of two timestamps that denote datetimes, the more recent one
    has the greater or equal recency component. *)
Theorem score_monotone (content : str) (created_at : option timestamp)
    (g : option Client) (t1 t2 : timestamp) (d1 d2 : datetime) :
  parse_created_at fromisoformat t1 = Some d1 →
  parse_created_at fromisoformat t2 = Some d2 →
  (instant_us d1 <= instant_us d2)%Z →
  (score content (lit "low") created_at g).1
    <= (score content (lit "critical") created_at g).1
  ∧ recency_score (Some t1) <= recency_score (Some t2).
Proof.
  intros H1 H2 Hle. split.
  - rewrite !score_unfold. by apply composite_mono_risk.
  - unfold _compute_recency_score. rewrite H1, H2.
    by apply recency_of_age_antitone, age_hours_antitone.
Qed.

Lemma learned_rows_skipped (keywords : gset str) (rows : list row)
    (acc : list (str * Q) * list (str * Q)) :
  Forall (λ r, overlap_ratio keywords r = None) rows →
  fold_left (learned_row keywords) rows acc = acc.
Proof.
  intros Hrows. revert acc.
  induction Hrows as [|r rows Hr _ IH]; intros acc; simpl; [done|].
  rewrite <- (IH acc) at 2. f_equal.
  unfold learned_row. destruct acc. by rewrite Hr.
Qed.

Lemma learned_degraded (content : str) (g : option Client) :
  history_degraded SUPABASE_URL SUPABASE_SERVICE_ROLE_KEY create_client
    execute_query content g →
  (learned_score content g).1 = 0.5.
Proof.
  unfold history_degraded, _compute_learned_score.
  destruct (_get_supabase _ _ _ g) as [[c|] g']; simpl; [|done].
  intros Hdeg. case_bool_decide; [done|].
  destruct Hdeg as [-> | [-> | (rows & -> & Hrows)]]; [done..|].
  simpl. case_bool_decide; [done|]. simpl.
  unfold learned_of_rows. by rewrite learned_rows_skipped.
Qed.

End importance_properties.

Lemma score_monotone_witness :
  let parse := λ _ : str, @None datetime in
  let d1 := Datetime 0 None in
  let d2 := Datetime 86400000000 (Some 0%Z) in
  let score :=
    @compute_importance_score unit parse 90000000000 None None
      (λ _ _, tt) (λ _, Raised) in
  parse_created_at parse (TsDatetime d1) = Some d1
  ∧ parse_created_at parse (TsDatetime d2) = Some d2
  ∧ (instant_us d1 <= instant_us d2)%Z
  ∧ (score (lit "review pending") (lit "low") None None).1
      <= (score (lit "review pending") (lit "critical") None None).1
  ∧ _compute_recency_score parse 90000000000 (Some (TsDatetime d1))
      <= _compute_recency_score parse 90000000000 (Some (TsDatetime d2)).
Proof.
  intros parse d1 d2 score.
  assert (H1 : parse_created_at parse (TsDatetime d1) = Some d1) by reflexivity.
  assert (H2 : parse_created_at parse (TsDatetime d2) = Some d2) by reflexivity.
  assert (H3 : (instant_us d1 <= instant_us d2)%Z) by (by vm_compute).
  split; [exact H1|]. split; [exact H2|]. split; [exact H3|].
  exact (score_monotone parse 90000000000 None None (λ _ _, tt) (λ _, Raised)
           (lit "review pending") None None (TsDatetime d1) (TsDatetime d2)
           d1 d2 H1 H2 H3).
Defined.


Lemma unresolved_keywords_NoDup : NoDup _UNRESOLVED_KEYWORDS.
Proof. apply (bool_decide_unpack _). by vm_compute. Qed.



Local Close Scope Q_scope.

(** * Further properties of the redaction engine *)

(** [RedactionMap.add] returns the placeholder already issued for an
    original value, under whatever category it is asked again, and then
    leaves the map as it is. *)
Theorem add_reuses_placeholder (m : RedactionMap) (original ty ty' : str) :
  add (add m original ty).2 original ty' = add m original ty.
Proof.
  unfold add at 2 3.
  destruct (dict_get (forward m) original) as [p|] eqn:Hget; simpl.
  - unfold add. by rewrite Hget.
  - unfold add. simpl. rewrite dict_get_set. by rewrite decide_True.
Qed.

(** [add] never changes or removes the placeholder of another value. *)
Theorem add_keeps_placeholders (m : RedactionMap) (original ty v p : str) :
  dict_get (forward m) v = Some p →
  dict_get (forward (add m original ty).2) v = Some p.
Proof.
  intros Hv. unfold add.
  destruct (dict_get (forward m) original) as [q|] eqn:Hget; simpl; [done|].
  rewrite dict_get_set. destruct (decide (v = original)) as [->|]; [|done].
  congruence.
Qed.

Lemma add_keeps_placeholders_witness :
  let m := (add (new_map (lit "m1")) (lit "91234567") (lit "PHONE_NUMBER")).2 in
  dict_get (forward m) (lit "91234567") = Some (lit "<PHONE_NUMBER_1>")
  ∧ dict_get (forward (add m (lit "81234567") (lit "PHONE_NUMBER")).2)
      (lit "91234567") = Some (lit "<PHONE_NUMBER_1>").
Proof.
  intros m.
  assert (H : dict_get (forward m) (lit "91234567")
              = Some (lit "<PHONE_NUMBER_1>")) by (by vm_compute).
  split; [exact H|].
  exact (add_keeps_placeholders m (lit "81234567") (lit "PHONE_NUMBER")
           (lit "91234567") (lit "<PHONE_NUMBER_1>") H).
Defined.

Lemma redact_map_cases (fresh text : str) (store : gmap str RedactionMap) :
  (redact fresh text store).1.2 = new_map fresh
  ∨ (redact fresh text store).1.2 = built_map fresh text.
Proof.
  unfold redact, built_map.
  destruct (is_empty text || is_empty (strip text)); [by left|].
  case_bool_decide; [by left|]. right.
  fold (kept_spans text).
  by destruct (substitute (kept_spans text) (new_map fresh) text).
Qed.

Lemma redact_map_state (fresh text : str) (store : gmap str RedactionMap) :
  map_state (redact fresh text store).1.2 (first_seen (kept_spans text)).
Proof. by destruct (redact_render fresh text store) as (_ & _ & ? & _). Qed.

(** In the map [redact] returns, [forward] and [reverse] are inverse
    look-ups of each other, with as many entries. *)
Theorem redact_map_bijection (fresh text : str)
    (store : gmap str RedactionMap) :
  let m := (redact fresh text store).1.2 in
  (∀ v p, dict_get (forward m) v = Some p ↔ dict_get (reverse m) p = Some v)
  ∧ length (forward m) = length (reverse m).
Proof.
  intros m. pose proof (redact_map_state fresh text store) as Hst.
  fold m in Hst. destruct Hst as (Hnd & Hfwd & Hrev & _).
  assert (Hk1 : NoDup (map fst (forward m))) by (by rewrite Hfwd, numbered_keys).
  assert (Hk2 : NoDup (map fst (reverse m))).
  { rewrite Hrev, Hfwd.
    replace (map fst (map (λ '(v, p), (p, v)) (numbered [] (first_seen (kept_spans text)))))
      with (map snd (numbered [] (first_seen (kept_spans text)))).
    - apply numbered_NoDup.
    - rewrite map_map. apply map_ext. by intros []. }
  assert (Hswap : ∀ v p, (p, v) ∈ reverse m ↔ (v, p) ∈ forward m).
  { intros v p. rewrite Hrev, list_elem_of_fmap. split.
    - by intros ([v' p'] & [= -> ->] & Hin).
    - intros Hin. by exists (v, p). }
  split; [|by rewrite Hrev, length_map].
  intros v p. split; intros H.
  - apply dict_get_elem; [done|]. by apply Hswap, dict_get_Some_elem.
  - apply dict_get_elem; [done|]. by apply Hswap, dict_get_Some_elem.
Qed.

Lemma dict_set_keys_NoDup {K V : Type} `{EqDecision K}
    (d : list (K * V)) (k : K) (v : V) :
  NoDup (map fst d) → NoDup (map fst (dict_set d k v)).
Proof.
  induction d as [|[k' v'] d IH]; simpl.
  - intros _. apply NoDup_singleton.
  - intros [Hk' Hnd]%NoDup_cons.
    destruct (decide (k = k')) as [->|Hne]; simpl.
    + by apply NoDup_cons.
    + apply NoDup_cons. split; [|by apply IH].
      intros Hin. apply Hk'.
      apply dict_get_None in Hk' as Hget.
      destruct (decide (k' ∈ map fst d)) as [|Hnot]; [done|].
      apply dict_get_None in Hin; [done|].
      rewrite dict_get_set. by rewrite decide_False.
Qed.

Lemma substitute_counts_NoDup (ks : list span) (m : RedactionMap) (red : str) :
  NoDup (map fst (entity_counts m)) →
  NoDup (map fst (entity_counts (fold_left substitute_step ks (m, red)).1)).
Proof.
  revert m red. induction ks as [|s ks IH]; intros m red Hnd; [done|].
  cbn [fold_left]. unfold substitute_step at 2.
  destruct (add m (value s) (entity_type s)) as [p m1] eqn:Hadd.
  apply IH. unfold add in Hadd.
  destruct (dict_get (forward m) (value s)).
  - by injection Hadd as _ <-.
  - injection Hadd as _ <-. simpl. by apply dict_set_keys_NoDup.
Qed.

Lemma redact_counts_NoDup (fresh text : str) (store : gmap str RedactionMap) :
  NoDup (map fst (entity_counts (redact fresh text store).1.2)).
Proof.
  destruct (redact_map_cases fresh text store) as [-> | ->].
  - constructor.
  - apply substitute_counts_NoDup. constructor.
Qed.

Lemma filter_split_length {A} (P : A → Prop) `{∀ x, Decision (P x)}
    (l : list A) :
  length l = length (filter P l) + length (filter (λ x, ¬ P x) l).
Proof.
  induction l as [|x l IH]; [done|].
  destruct (decide (P x)) as [Hx|Hx].
  - rewrite filter_cons_True, (filter_cons_False (λ x, ¬ P x)) by tauto.
    simpl. lia.
  - rewrite filter_cons_False, (filter_cons_True (λ x, ¬ P x)) by tauto.
    simpl. lia.
Qed.

Lemma count_without (l : list str) (k ty : str) :
  length (filter (λ t, t = ty) (filter (λ t, ¬ t = k) l))
  = if decide (ty = k) then 0 else length (filter (λ t, t = ty) l).
Proof.
  induction l as [|t l IH]; [by destruct (decide _)|].
  destruct (decide (t = k)) as [->|Htk].
  - rewrite (filter_cons_False (λ t, ¬ t = k)) by tauto. rewrite IH.
    destruct (decide (ty = k)) as [->|Hne]; [done|].
    by rewrite filter_cons_False by congruence.
  - rewrite (filter_cons_True (λ t, ¬ t = k)) by done.
    destruct (decide (t = ty)) as [->|Hty].
    + rewrite !filter_cons_True by done. simpl. rewrite IH.
      by destruct (decide (ty = k)).
    + rewrite !filter_cons_False by done. done.
Qed.

(** A dictionary that holds, for every key, the number of entries of
    [l] equal to it, has values that add up to the length of [l]. *)
Lemma counts_sum (d : list (str * nat)) (l : list str) :
  NoDup (map fst d) →
  (∀ ty, default 0 (dict_get d ty) = length (filter (λ t, t = ty) l)) →
  sum_list_with snd d = length l.
Proof.
  revert l. induction d as [|[k n] d IH]; intros l Hnd Hcnt.
  - destruct l as [|t l]; [done|]. specialize (Hcnt t).
    rewrite filter_cons_True in Hcnt by done. done.
  - apply NoDup_cons in Hnd as [Hk Hnd]. simpl.
    rewrite (filter_split_length (λ t, t = k) l).
    pose proof (Hcnt k) as Hn. simpl in Hn. rewrite decide_True in Hn by done.
    simpl in Hn. rewrite <- Hn. f_equal.
    apply IH; [done|]. intros ty. rewrite count_without.
    destruct (decide (ty = k)) as [->|Hne].
    + simpl in Hk. by rewrite (proj2 (dict_get_None d k) Hk).
    + specialize (Hcnt ty). simpl in Hcnt.
      by rewrite decide_False in Hcnt by done.
Qed.

(** [total_entities] of the map [redact] returns is the number of
    distinct values among the kept spans, and the per-category counts
    of [entity_counts] add up to it. *)
Theorem entity_counts_total (fresh text : str)
    (store : gmap str RedactionMap) :
  let m := (redact fresh text store).1.2 in
  total_entities m = length (first_seen (kept_spans text))
  ∧ sum_list_with snd (entity_counts m) = total_entities m.
Proof.
  intros m. pose proof (redact_map_state fresh text store) as Hst.
  fold m in Hst. destruct Hst as (_ & Hfwd & _ & Hcnt).
  assert (Hlen : total_entities m = length (first_seen (kept_spans text))).
  { unfold total_entities. rewrite Hfwd.
    rewrite <- (length_map fst (numbered _ _)), numbered_keys.
    by rewrite length_map. }
  split; [done|]. rewrite Hlen.
  rewrite <- (length_map snd (first_seen _)).
  apply counts_sum; [apply redact_counts_NoDup | done].
Qed.

(** * Further properties of overlap resolution *)

Lemma fold_dedup_grows (matches filtered : list span) (x : span) :
  x ∈ filtered → x ∈ fold_left dedup_step matches filtered.
Proof.
  revert filtered. induction matches as [|m matches IH]; intros filtered Hx;
    [done|].
  simpl. apply IH. unfold dedup_step. destruct (existsb _ _); [done|].
  apply elem_of_app. by left.
Qed.

Lemma fold_dedup_cover (matches filtered : list span) (x : span) :
  x ∈ matches →
  x ∈ fold_left dedup_step matches filtered
  ∨ ∃ k, k ∈ fold_left dedup_step matches filtered ∧ overlaps x k = true.
Proof.
  revert filtered. induction matches as [|m matches IH]; intros filtered Hx.
  - by apply elem_of_nil in Hx.
  - simpl. apply elem_of_cons in Hx as [-> | Hx]; [|by apply IH].
    destruct (existsb (overlaps m) filtered) eqn:Hex.
    + right. apply existsb_exists in Hex as (k & Hk & Hov).
      exists k. split; [|done].
      apply fold_dedup_grows. unfold dedup_step.
      destruct (existsb _ _); [by apply list_elem_of_In|].
      apply elem_of_app. left. by apply list_elem_of_In.
    + left. apply fold_dedup_grows. unfold dedup_step. rewrite Hex.
      apply elem_of_app. right. left.
Qed.

(** No match is dropped without cover: every match the patterns find
    shares a character position with a span that is replaced. *)
Theorem matches_are_covered (text : str) (m : span) :
  m ∈ collect_matches text →
  ∃ k p, k ∈ kept_spans text ∧ covers m p ∧ covers k p.
Proof.
  intros Hm. pose proof (collect_matches_spec text m Hm) as [(Hne & _) _].
  destruct (fold_dedup_cover (sort_desc (collect_matches text)) [] m)
    as [Hk | (k & Hk & Hov)].
  - by apply sort_desc_elem.
  - exists m, (start m). split; [done|]. unfold covers. lia.
  - pose proof (kept_spans_wf text k Hk) as [(Hkne & _) _].
    exists k, (Nat.max (start m) (start k)). split; [done|].
    unfold overlaps in Hov. apply andb_true_iff in Hov as [H1 H2].
    apply Nat.ltb_lt in H1, H2. unfold covers. lia.
Qed.

Lemma matches_are_covered_witness :
  let text := lit "Call John at 91234567, NRIC S1234567A" in
  let m := Span 13 21 (lit "PHONE_NUMBER") (lit "91234567") in
  m ∈ collect_matches text
  ∧ ∃ k p, k ∈ kept_spans text ∧ covers m p ∧ covers k p.
Proof.
  intros text m.
  assert (Hcm : collect_matches text
                = [Span 28 37 (lit "SG_NRIC") (lit "S1234567A");
                   Span 13 21 (lit "PHONE_NUMBER") (lit "91234567")])
    by (by vm_compute).
  assert (H : m ∈ collect_matches text).
  { rewrite Hcm. repeat constructor. }
  split; [exact H | exact (matches_are_covered text m H)].
Defined.

(** Every match collected from the patterns is a non-empty slice of the
    text at its offsets, under a category of the registry. *)
Theorem collected_spans_are_slices (text : str) (m : span) :
  m ∈ collect_matches text →
  start m < stop m ∧ stop m ≤ length text
  ∧ value m = take (stop m - start m) (drop (start m) text)
  ∧ entity_type m ∈ map fst _PATTERNS.
Proof.
  intros Hm. destruct (collect_matches_spec text m Hm) as [(? & ? & ?) ?].
  done.
Qed.

Lemma collected_spans_are_slices_witness :
  let text := lit "Call John at 91234567, NRIC S1234567A" in
  let m := Span 28 37 (lit "SG_NRIC") (lit "S1234567A") in
  m ∈ collect_matches text
  ∧ (start m < stop m ∧ stop m ≤ length text
     ∧ value m = take (stop m - start m) (drop (start m) text)
     ∧ entity_type m ∈ map fst _PATTERNS).
Proof.
  intros text m.
  assert (Hcm : collect_matches text
                = [Span 28 37 (lit "SG_NRIC") (lit "S1234567A");
                   Span 13 21 (lit "PHONE_NUMBER") (lit "91234567")])
    by (by vm_compute).
  assert (H : m ∈ collect_matches text).
  { rewrite Hcm. repeat constructor. }
  split; [exact H | exact (collected_spans_are_slices text m H)].
Defined.

(** A text made of whitespace only matches none of the patterns. *)
Theorem blank_text_has_no_match (text : str) :
  Forall (λ c, is_space c = true) text → collect_matches text = [].
Proof.
  intros Hall. apply collect_matches_blank.
  rewrite (strip_all_space text Hall). apply orb_true_r.
Qed.

Lemma blank_text_has_no_match_witness :
  Forall (λ c, is_space c = true) (lit " ") ∧ collect_matches (lit " ") = [].
Proof.
  assert (H : Forall (λ c, is_space c = true) (lit " "))
    by (repeat constructor).
  split; [exact H | exact (blank_text_has_no_match (lit " ") H)].
Defined.

(** * Further properties of the Map Store *)

(** [redact] returns a map carrying the identifier drawn for it,
    registers exactly that map under it, and leaves every other entry
    of the store as it was. *)
Theorem redact_registers_map (fresh text : str)
    (store : gmap str RedactionMap) :
  let m := (redact fresh text store).1.2 in
  let store' := (redact fresh text store).2 in
  id m = fresh
  ∧ store' !! fresh = Some m
  ∧ ∀ other, other ≠ fresh → store' !! other = store !! other.
Proof.
  intros m store'.
  destruct (redact_render fresh text store) as (Hstore & Hid & _).
  fold m in Hstore, Hid. fold store' in Hstore. rewrite Hid in Hstore.
  split; [done|]. rewrite Hstore. split; [apply lookup_insert_eq|].
  intros other Hne. by rewrite lookup_insert_ne.
Qed.

(** Releasing the map right after [redact] reports it present and, when
    the identifier was not in use before, gives back the store as it
    was; [de_redact] with that identifier then raises [KeyError]. *)
Theorem redact_then_release (fresh text : str)
    (store : gmap str RedactionMap) :
  store !! fresh = None →
  let m := (redact fresh text store).1.2 in
  cleanup_redaction_map (id m) (redact fresh text store).2 = (true, store)
  ∧ ∀ t, ∃ msg, de_redact t (id m) store = inl (KeyError msg).
Proof.
  intros Hfree m.
  destruct (redact_render fresh text store) as (Hstore & Hid & _).
  fold m in Hstore, Hid. rewrite Hstore, Hid. split.
  - unfold cleanup_redaction_map. rewrite lookup_insert_eq.
    by rewrite delete_insert_id.
  - intros t. unfold de_redact. rewrite Hfree. eauto.
Qed.

Lemma redact_then_release_witness :
  let text := lit "Call John at 91234567" in
  let m := (redact (lit "m1") text ∅).1.2 in
  (∅ : gmap str RedactionMap) !! lit "m1" = None
  ∧ cleanup_redaction_map (id m) (redact (lit "m1") text ∅).2 = (true, ∅)
  ∧ ∀ t, ∃ msg, de_redact t (id m) ∅ = inl (KeyError msg).
Proof.
  intros text m.
  assert (H : (∅ : gmap str RedactionMap) !! lit "m1" = None) by reflexivity.
  split; [exact H | exact (redact_then_release (lit "m1") text ∅ H)].
Defined.

Lemma replace_absent (p o s : str) :
  contains p s = false → replace p o s = s.
Proof.
  intros Hno.
  assert (Hne : p ≠ []).
  { intros ->. by destruct s. }
  rewrite <- (app_nil_r s) at 1. rewrite replace_skip.
  - by rewrite replace_nil, app_nil_r.
  - intros k _. apply contains_no_prefix. by rewrite app_nil_r.
Qed.

(** [de_redact] returns a text unchanged when none of the placeholders
    of the map occurs in it. *)
Theorem de_redact_without_placeholders (text map_id : str)
    (m : RedactionMap) (store : gmap str RedactionMap) :
  store !! map_id = Some m →
  (∀ p o, (p, o) ∈ reverse m → contains p text = false) →
  de_redact text map_id store = inr text.
Proof.
  intros Hlook Hfree. unfold de_redact. rewrite Hlook. f_equal.
  induction (reverse m) as [|[p o] R IH]; [done|]. simpl.
  rewrite replace_absent.
  - apply IH. intros p' o' Hin. apply (Hfree p' o'). by right.
  - apply (Hfree p o). left.
Qed.

Lemma de_redact_without_placeholders_witness :
  let m := (redact (lit "m1") (lit "Call 91234567") ∅).1.2 in
  let store := (redact (lit "m1") (lit "Call 91234567") ∅).2 in
  store !! lit "m1" = Some m
  ∧ (∀ p o, (p, o) ∈ reverse m → contains p (lit "No placeholder") = false)
  ∧ de_redact (lit "No placeholder") (lit "m1") store
    = inr (lit "No placeholder").
Proof.
  intros m store.
  assert (Hrev : reverse m = [(lit "<PHONE_NUMBER_1>", lit "91234567")])
    by (by vm_compute).
  assert (H1 : store !! lit "m1" = Some m) by (by vm_compute).
  assert (H2 : ∀ p o, (p, o) ∈ reverse m
                      → contains p (lit "No placeholder") = false).
  { rewrite Hrev. intros p o Hin.
    apply elem_of_cons in Hin as [Heq | Hin].
    - injection Heq as -> _. by vm_compute.
    - by apply elem_of_nil in Hin. }
  split; [exact H1|]. split; [exact H2|].
  exact (de_redact_without_placeholders (lit "No placeholder") (lit "m1")
           m store H1 H2).
Defined.

(** Every placeholder of the map [redact] returns is [<CATEGORY_N>] for
    a category of the registry and an ordinal N between 1 and the count
    recorded for the category, and stands for the value of a kept
    span. *)
Theorem redact_placeholders_shape (fresh text : str)
    (store : gmap str RedactionMap) :
  let m := (redact fresh text store).1.2 in
  Forall (λ '(v, p),
            ∃ ty n s,
              p = placeholder_of ty n
              ∧ ty ∈ map fst _PATTERNS
              ∧ 1 ≤ n ≤ default 0 (dict_get (entity_counts m) ty)
              ∧ s ∈ kept_spans text ∧ value s = v
              ∧ wf_placeholder p)
         (forward m).
Proof.
  intros m. pose proof (redact_map_state fresh text store) as Hst.
  fold m in Hst. destruct Hst as (_ & Hfwd & _ & Hcnt).
  apply Forall_forall. intros [v p] Hin. rewrite Hfwd in Hin.
  apply numbered_range in Hin as (ty & n & -> & Hin & Hlo & Hhi).
  apply first_seen_elem in Hin as Hks.
  destruct Hks as [Hnil | (s & Hs & -> & ->)]; [by apply elem_of_nil in Hnil|].
  pose proof (kept_spans_wf text s Hs) as [_ Hty].
  exists (entity_type s), n, s. rewrite Hcnt.
  unfold ordinal in Hlo, Hhi. simpl in Hlo, Hhi.
  repeat split; [done | lia | lia | done | ].
  by apply placeholder_of_wf, pattern_types_ok.
Qed.

(** * Further properties of the importance scorer *)

Local Open Scope Q_scope.

Lemma recency_of_age_range (a : Q) : 0.1 <= recency_of_age a <= 1.
Proof.
  unfold recency_of_age.
  repeat match goal with
  | |- context [Qle_bool ?x ?y] => destruct (Qle_bool x y)
  end; split; by vm_compute.
Qed.

Lemma risk_score_range (risk_level : str) :
  0.2 <= _compute_risk_score risk_level <= 1.
Proof.
  unfold _compute_risk_score.
  destruct (dict_get RISK_LEVEL_SCORES (strip (lower risk_level)))
    as [q|] eqn:Hget; simpl; [|split; by vm_compute].
  apply dict_get_Some_elem in Hget. unfold RISK_LEVEL_SCORES in Hget.
  repeat (apply elem_of_cons in Hget as [Hget | Hget];
          [injection Hget as _ ->; split; by vm_compute|]).
  by apply elem_of_nil in Hget.
Qed.

Lemma unresolved_score_range (content : str) :
  0 <= _compute_unresolved_score content <= 1.
Proof.
  unfold _compute_unresolved_score.
  destruct (is_empty content); [split; by vm_compute|].
  repeat match goal with
  | |- context [?a <=? ?b] => destruct (a <=? b)
  end; split; by vm_compute.
Qed.

Lemma learned_of_rows_range (keywords : gset str) (rows : list row) :
  0 <= learned_of_rows keywords rows <= 1.
Proof.
  unfold learned_of_rows.
  destruct (fold_left (learned_row keywords) rows ([], [])) as [ts tk].
  case_bool_decide; [split; by vm_compute|].
  destruct (fold_left _ ts (0.0, 0.0)) as [total_score total_weight].
  destruct (Qeq_bool total_weight 0); [split; by vm_compute|].
  apply clamp_bounds.
Qed.

Section importance_more.
Context {Client : Type}.
Variable fromisoformat : str → option datetime.
Variable now_us : Z.
Variable SUPABASE_URL SUPABASE_SERVICE_ROLE_KEY : option str.
Variable create_client : str → str → Client.
Variable execute_query : Client → response.

Local Abbreviation recency_score := (_compute_recency_score fromisoformat now_us).
Local Abbreviation learned_score :=
  (_compute_learned_score SUPABASE_URL SUPABASE_SERVICE_ROLE_KEY
     create_client execute_query).
Local Abbreviation score :=
  (compute_importance_score fromisoformat now_us SUPABASE_URL
     SUPABASE_SERVICE_ROLE_KEY create_client execute_query).
Local Abbreviation get_supabase :=
  (_get_supabase SUPABASE_URL SUPABASE_SERVICE_ROLE_KEY create_client).

Lemma recency_score_range (created_at : option timestamp) :
  0.1 <= recency_score created_at <= 1.
Proof.
  unfold _compute_recency_score.
  destruct created_at as [ts|]; [|split; by vm_compute].
  destruct (parse_created_at fromisoformat ts); [|split; by vm_compute].
  apply recency_of_age_range.
Qed.

Lemma learned_score_range (content : str) (g : option Client) :
  0 <= (learned_score content g).1 <= 1.
Proof.
  unfold _compute_learned_score.
  destruct (get_supabase g) as [[c|] g']; simpl; [|split; by vm_compute].
  case_bool_decide; [split; by vm_compute|].
  destruct (execute_query c) as [|data]; [split; by vm_compute|].
  case_bool_decide; simpl; [split; by vm_compute|].
  apply learned_of_rows_range.
Qed.

(** Every component has a range of its own: recency at least 0.1, risk
    at least 0.2, unresolved and learned at least 0, none above 1.  The
    weighted sum is therefore between 0.09 and 1, so the clamp changes
    nothing and no score is below 0.09. *)
Theorem score_floor (content risk_level : str)
    (created_at : option timestamp) (g : option Client) :
  let raw :=
    0.3 * recency_score created_at + 0.3 * _compute_risk_score risk_level
    + 0.2 * _compute_unresolved_score content
    + 0.2 * (learned_score content g).1 in
  0.1 <= recency_score created_at <= 1
  ∧ 0.2 <= _compute_risk_score risk_level <= 1
  ∧ 0 <= _compute_unresolved_score content <= 1
  ∧ 0 <= (learned_score content g).1 <= 1
  ∧ 0.09 <= raw <= 1
  ∧ py_max 0 (py_min 1 raw) == raw
  ∧ 0.09 <= (score content risk_level created_at g).1 <= 1.
Proof.
  intros raw.
  pose proof (recency_score_range created_at) as H1.
  pose proof (risk_score_range risk_level) as H2.
  pose proof (unresolved_score_range content) as H3.
  pose proof (learned_score_range content g) as H4.
  do 4 (split; [done|]).
  assert (Hraw : 0.09 <= raw <= 1) by (unfold raw; split; lra).
  assert (Hclamp : py_max 0 (py_min 1 raw) == raw).
  { destruct (py_min_cases 1 raw) as [E | E]; rewrite E.
    - pose proof (py_min_le 1 raw) as [_ Hle]. rewrite E in Hle.
      destruct (py_max_cases 0 1) as [E' | E']; rewrite E'; [|lra].
      pose proof (py_max_le 0 1) as [_ Hle']. rewrite E' in Hle'. lra.
    - destruct (py_max_cases 0 raw) as [E' | E']; rewrite E'; [|lra].
      pose proof (py_max_le 0 raw) as [_ Hle']. rewrite E' in Hle'. lra. }
  split; [done|]. split; [done|].
  rewrite score_unfold. unfold composite.
  fold raw. unfold RECENCY_WEIGHT, RISK_LEVEL_WEIGHT,
    UNRESOLVED_ACTION_WEIGHT, LEARNED_WEIGHT. fold raw.
  split; [|apply round3_bounds, clamp_bounds].
  assert (Hlow : 0.09 <= py_max 0 (py_min 1 raw)) by lra.
  apply round3_mono in Hlow.
  eapply Qle_trans; [|exact Hlow]. by vm_compute.
Qed.

(** [_get_supabase] is a lazy singleton: a client that exists is
    returned as it is, and calling again after any call gives the same
    client and the same global, so at most one client is ever made. *)
Theorem get_supabase_singleton (g : option Client) :
  let get :=
    _get_supabase SUPABASE_URL SUPABASE_SERVICE_ROLE_KEY create_client in
  get (get g).2 = get g
  ∧ (get g).1 = (get g).2
  ∧ ∀ c, g = Some c → get g = (Some c, Some c).
Proof.
  intros get. unfold get, _get_supabase. split; [|split].
  - destruct g as [c|]; [done|].
    destruct SUPABASE_URL as [url|], SUPABASE_SERVICE_ROLE_KEY as [key|];
      try done.
    by destruct (is_empty url || is_empty key).
  - destruct g as [c|]; [done|].
    destruct SUPABASE_URL as [url|], SUPABASE_SERVICE_ROLE_KEY as [key|];
      try done.
    by destruct (is_empty url || is_empty key).
  - by intros c ->.
Qed.

(** A timestamp at most 24 hours old, or in the future, has recency
    1.0; one older than 30 days has 0.1. *)
Theorem recency_fresh_and_stale (ts : timestamp) (dt : datetime) :
  parse_created_at fromisoformat ts = Some dt →
  ((now_us - instant_us dt <= 24 * 3600 * 1000000)%Z →
   recency_score (Some ts) = 1.0)
  ∧ ((now_us - instant_us dt > 720 * 3600 * 1000000)%Z →
     recency_score (Some ts) = 0.1).
Proof.
  intros Hparse. unfold _compute_recency_score. rewrite Hparse.
  unfold age_hours.
  set (d := (now_us - instant_us dt)%Z).
  assert (Hdiv : inject_Z d / 1000000 / 3600
                 == inject_Z d * (1 # 3600000000)).
  { unfold Qdiv. change (/ 1000000) with (1 # 1000000).
    change (/ 3600) with (1 # 3600). ring. }
  split; intros Hd.
  - assert (Hq : inject_Z d <= inject_Z (24 * 3600 * 1000000)).
    { rewrite <- Zle_Qle. lia. }
    change (inject_Z (24 * 3600 * 1000000)) with (86400000000 # 1) in Hq.
    unfold recency_of_age.
    assert (Hage : py_max 0 (inject_Z d / 1000000 / 3600) <= 24).
    { destruct (py_max_cases 0 (inject_Z d / 1000000 / 3600)) as [E | E];
        rewrite E; [done|]. rewrite Hdiv. lra. }
    apply Qle_bool_iff in Hage. by rewrite Hage.
  - assert (Hq : inject_Z (720 * 3600 * 1000000) < inject_Z d).
    { rewrite <- Zlt_Qlt. lia. }
    change (inject_Z (720 * 3600 * 1000000)) with (2592000000000 # 1) in Hq.
    assert (Hage : 720 < py_max 0 (inject_Z d / 1000000 / 3600)).
    { pose proof (py_max_le 0 (inject_Z d / 1000000 / 3600)) as [_ Hle].
      rewrite Hdiv in Hle at 1. lra. }
    unfold recency_of_age.
    repeat match goal with
    | |- context [Qle_bool ?x ?y] =>
        let H := fresh "H" in
        destruct (Qle_bool x y) eqn:H;
        [apply Qle_bool_iff in H; lra | clear H]
    end. done.
Qed.
End importance_more.

Lemma recency_fresh_and_stale_witness :
  let parse := λ _ : str, @None datetime in
  let dt := Datetime 0 None in
  parse_created_at parse (TsDatetime dt) = Some dt
  ∧ ((3600000000 - instant_us dt <= 24 * 3600 * 1000000)%Z →
     _compute_recency_score parse 3600000000 (Some (TsDatetime dt)) = 1.0)
  ∧ ((3600000000 - instant_us dt > 720 * 3600 * 1000000)%Z →
     _compute_recency_score parse 3600000000 (Some (TsDatetime dt)) = 0.1).
Proof.
  intros parse dt.
  assert (H : parse_created_at parse (TsDatetime dt) = Some dt) by reflexivity.
  split; [exact H|].
  exact (recency_fresh_and_stale parse 3600000000 (TsDatetime dt) dt H).
Defined.

Local Close Scope Q_scope.

(** * Normalisation of labels and keywords *)

Lemma lower_char_space (c : ascii) : is_space (lower_char c) = is_space c.
Proof. destruct c as [[] [] [] [] [] [] [] []]; by vm_compute. Qed.

Lemma lower_char_idem (c : ascii) : lower_char (lower_char c) = lower_char c.
Proof. destruct c as [[] [] [] [] [] [] [] []]; by vm_compute. Qed.

Lemma lower_idem (s : str) : lower (lower s) = lower s.
Proof.
  unfold lower. rewrite map_map. apply map_ext. intros c. apply lower_char_idem.
Qed.

Lemma lower_all_space (s : str) :
  Forall (λ c, is_space c = true) s → Forall (λ c, is_space c = true) (lower s).
Proof.
  intros H. unfold lower. apply Forall_fmap.
  eapply Forall_impl; [exact H|]. intros c Hc. simpl. by rewrite lower_char_space.
Qed.

Lemma lstrip_app_space (w s : str) :
  Forall (λ c, is_space c = true) w → lstrip (w ++ s) = lstrip s.
Proof. induction 1 as [|c w Hc _ IH]; simpl; [done|]. by rewrite Hc. Qed.

Lemma lstrip_app (s w : str) :
  lstrip (s ++ w) = if decide (lstrip s = []) then lstrip w else lstrip s ++ w.
Proof.
  induction s as [|c s IH]; simpl; [done|].
  destruct (is_space c); [done|]. by rewrite decide_False.
Qed.

Lemma rstrip_app_space (s w : str) :
  Forall (λ c, is_space c = true) w → rstrip (s ++ w) = rstrip s.
Proof.
  intros Hw. unfold rstrip. rewrite rev_app_distr, lstrip_app_space; [done|].
  apply Forall_forall. intros c Hc. rewrite Forall_forall in Hw. apply Hw.
  by apply list_elem_of_In, in_rev, list_elem_of_In.
Qed.

Lemma strip_pad (w1 s w2 : str) :
  Forall (λ c, is_space c = true) w1 →
  Forall (λ c, is_space c = true) w2 →
  strip (w1 ++ s ++ w2) = strip s.
Proof.
  intros H1 H2. unfold strip. rewrite lstrip_app_space by done.
  rewrite lstrip_app. destruct (decide (lstrip s = [])) as [E|E].
  - by rewrite E, (lstrip_all_space w2 H2).
  - by apply rstrip_app_space.
Qed.

(** The risk score ignores letter case and surrounding whitespace in
    the label, and is always between 0.2 and 1. *)
Theorem risk_score_normalised (w1 s w2 : str) :
  Forall (λ c, is_space c = true) w1 →
  Forall (λ c, is_space c = true) w2 →
  _compute_risk_score (w1 ++ s ++ w2) = _compute_risk_score s
  ∧ _compute_risk_score (lower s) = _compute_risk_score s
  ∧ (0.2 <= _compute_risk_score s <= 1)%Q.
Proof.
  intros H1 H2. unfold _compute_risk_score. split; [|split].
  - unfold lower at 1. rewrite !map_app. fold (lower w1) (lower s) (lower w2).
    by rewrite strip_pad by (by apply lower_all_space).
  - by rewrite lower_idem.
  - apply risk_score_range.
Qed.

Lemma risk_score_normalised_witness :
  Forall (λ c, is_space c = true) (lit " ")
  ∧ Forall (λ c, is_space c = true) (lit "  ")
  ∧ _compute_risk_score (lit " " ++ lit "Critical" ++ lit "  ")
    = _compute_risk_score (lit "Critical")
  ∧ _compute_risk_score (lower (lit "Critical"))
    = _compute_risk_score (lit "Critical")
  ∧ (0.2 <= _compute_risk_score (lit "Critical") <= 1)%Q.
Proof.
  assert (H1 : Forall (λ c, is_space c = true) (lit " "))
    by (repeat constructor).
  assert (H2 : Forall (λ c, is_space c = true) (lit "  "))
    by (repeat constructor).
  split; [exact H1|]. split; [exact H2|].
  exact (risk_score_normalised (lit " ") (lit "Critical") (lit "  ") H1 H2).
Defined.

Lemma filter_length_mono {A} (P Q : A → Prop)
    `{∀ x, Decision (P x)} `{∀ x, Decision (Q x)} (l : list A) :
  (∀ x, P x → Q x) → length (filter P l) ≤ length (filter Q l).
Proof.
  intros HPQ. induction l as [|x l IH]; [done|].
  destruct (decide (P x)) as [HP|HP].
  - rewrite (filter_cons_True P), (filter_cons_True Q) by auto. simpl. lia.
  - rewrite (filter_cons_False P) by done.
    destruct (decide (Q x)).
    + rewrite (filter_cons_True Q) by done. simpl. lia.
    + by rewrite (filter_cons_False Q) by done.
Qed.

(** Text added around a content never lowers its unresolved score. *)
Theorem unresolved_score_grows (pre content post : str) :
  (_compute_unresolved_score content
   <= _compute_unresolved_score (pre ++ content ++ post))%Q.
Proof.
  unfold _compute_unresolved_score.
  destruct (is_empty content) eqn:Hc.
  { destruct (is_empty (pre ++ content ++ post)); [by vm_compute|].
    repeat match goal with
    | |- context [?a <=? ?b] => destruct (a <=? b)
    end; by vm_compute. }
  assert (Hne : is_empty (pre ++ content ++ post) = false).
  { destruct content; [done|]. by destruct pre. }
  rewrite Hne.
  set (n1 := length (filter (λ kw, contains kw (lower content) = true)
                            _UNRESOLVED_KEYWORDS)).
  set (n2 := length (filter (λ kw, contains kw (lower (pre ++ content ++ post))
                                   = true) _UNRESOLVED_KEYWORDS)).
  assert (Hle : n1 ≤ n2).
  { apply filter_length_mono. intros kw Hkw.
    apply contains_spec in Hkw as (a & b & Hab). apply contains_spec.
    exists (lower pre ++ a), (b ++ lower post).
    unfold lower in *. rewrite !map_app, Hab. by rewrite <- !app_assoc. }
  destruct (3 <=? n1) eqn:A1; destruct (3 <=? n2) eqn:A2;
    destruct (2 <=? n1) eqn:B1; destruct (2 <=? n2) eqn:B2;
    destruct (1 <=? n1) eqn:C1; destruct (1 <=? n2) eqn:C2;
    try (by vm_compute);
    repeat match goal with
    | H : (_ <=? _) = true |- _ => apply Nat.leb_le in H
    | H : (_ <=? _) = false |- _ => apply Nat.leb_gt in H
    end; lia.
Qed.

Lemma run_take (cls : ascii → bool) (cap : option nat) (s : str) (n : nat) :
  n ≤ run cls cap s → Forall (λ c, cls c = true) (take n s).
Proof.
  revert cap n. induction s as [|c s IH]; intros cap n Hn.
  - destruct n; constructor.
  - destruct n as [|n]; [constructor|]. simpl.
    destruct cap as [[|k]|]; simpl in Hn; try lia;
      destruct (cls c) eqn:Hc; try lia;
      (constructor; [done|]); eapply IH; apply Nat.succ_le_mono; exact Hn.
Qed.

Lemma scan_matches (r : regex) (s : str) :
  ∀ pos prev skip a b g,
    (a, b, g) ∈ scan r pos prev skip s →
    ∃ prev' s', match_here r prev' s' = Some (b - a) ∧ g = take (b - a) s'.
Proof.
  induction s as [|c s IH]; intros pos prev skip a b g.
  - destruct skip; simpl; [|by intros ?%elem_of_nil].
    destruct (match_here r prev []) as [n|] eqn:Hn; [|by intros ?%elem_of_nil].
    intros [Heq | Hin]%elem_of_cons; [|by apply elem_of_nil in Hin].
    injection Heq as -> -> ->. exists prev, [].
    by replace (pos + n - pos) with n by lia.
  - destruct skip as [|k]; simpl; [|apply IH].
    destruct (match_here r prev (c :: s)) as [n|] eqn:Hn; [|apply IH].
    intros [Heq | Hin]%elem_of_cons; [|by eapply IH].
    injection Heq as -> -> ->. exists prev, (c :: s).
    by replace (pos + n - pos) with n by lia.
Qed.

(** Every keyword [_extract_keywords] returns is a run of at least
    three lower-case letters a-z that occurs in the lower-cased text and
    is not a stop word. *)
Theorem extracted_keywords_shape (text kw : str) :
  kw ∈ _extract_keywords text →
  3 ≤ length kw
  ∧ Forall (λ c, is_lower_az c = true) kw
  ∧ contains kw (lower text) = true
  ∧ kw ∉ stopwords.
Proof.
  unfold _extract_keywords. intros [Hin Hstop]%elem_of_difference.
  apply elem_of_list_to_set, list_elem_of_fmap in Hin as ([[a b] g] & -> & Hin).
  split; [|split; [|split; [|done]]].
  - apply scan_matches in Hin as Hm. destruct Hm as (prev & s' & Hm & ->).
    simpl in Hm. apply try_down_Some in Hm as (i & [Hlo Hhi] & Hk).
    simpl in Hk. injection Hk as Hk. rewrite Nat.add_0_r in Hk. subst i.
    pose proof (run_le is_lower_az None s'). rewrite length_take. lia.
  - apply scan_matches in Hin as Hm. destruct Hm as (prev & s' & Hm & ->).
    simpl in Hm. apply try_down_Some in Hm as (i & [Hlo Hhi] & Hk).
    simpl in Hk. injection Hk as Hk. rewrite Nat.add_0_r in Hk. subst i.
    by apply (run_take is_lower_az None).
  - apply scan_spec in Hin as (_ & _ & _ & ->); [|done].
    apply contains_spec.
    exists (take (a - 0) (lower text)),
           (drop (b - a) (drop (a - 0) (lower text))).
    by rewrite !take_drop.
Qed.

Lemma extracted_keywords_shape_witness :
  lit "egfr" ∈ _extract_keywords (lit "The eGFR was low")
  ∧ 3 ≤ length (lit "egfr")
  ∧ Forall (λ c, is_lower_az c = true) (lit "egfr")
  ∧ contains (lit "egfr") (lower (lit "The eGFR was low")) = true
  ∧ lit "egfr" ∉ stopwords.
Proof.
  assert (H : lit "egfr" ∈ _extract_keywords (lit "The eGFR was low")).
  { apply (bool_decide_unpack _). by vm_compute. }
  split; [exact H|].
  exact (extracted_keywords_shape (lit "The eGFR was low") (lit "egfr") H).
Defined.

(** * [batch_score] *)

Local Open Scope Q_scope.

Section batch_properties.
Context {Client : Type}.
Variable fromisoformat : str → option datetime.
Variable now_us : Z.
Variable SUPABASE_URL SUPABASE_SERVICE_ROLE_KEY : option str.
Variable create_client : str → str → Client.
Variable execute_query : Client → response.

Local Abbreviation score :=
  (compute_importance_score fromisoformat now_us SUPABASE_URL
     SUPABASE_SERVICE_ROLE_KEY create_client execute_query).
Local Abbreviation learned_score :=
  (_compute_learned_score SUPABASE_URL SUPABASE_SERVICE_ROLE_KEY
     create_client execute_query).
Local Abbreviation get_supabase :=
  (_get_supabase SUPABASE_URL SUPABASE_SERVICE_ROLE_KEY create_client).
Local Abbreviation batch :=
  (batch_score fromisoformat now_us SUPABASE_URL SUPABASE_SERVICE_ROLE_KEY
     create_client execute_query).

(** The score [batch_score] computes for a highlight. *)
Local Abbreviation score_of h g :=
  (score (default [] (get_content_snippet h))
         (default (lit "medium") (get_risk_level h))
         (TsStr <$> get_created_at h) g).1.

Lemma get_supabase_idem (g : option Client) :
  get_supabase (get_supabase g).2 = get_supabase g.
Proof.
  unfold _get_supabase. destruct g as [c|]; [done|].
  destruct SUPABASE_URL as [url|], SUPABASE_SERVICE_ROLE_KEY as [key|];
    try done.
  by destruct (is_empty url || is_empty key).
Qed.

Lemma learned_score_global (content : str) (g : option Client) :
  (learned_score content g).2 = (get_supabase g).2
  ∧ learned_score content (get_supabase g).2 = learned_score content g.
Proof.
  unfold _compute_learned_score. rewrite get_supabase_idem.
  destruct (get_supabase g) as [[c|] g']; simpl; [|done].
  case_bool_decide; [done|].
  destruct (execute_query c) as [|data]; [done|].
  by case_bool_decide.
Qed.

Lemma score_global (content risk_level : str)
    (created_at : option timestamp) (g : option Client) :
  (score content risk_level created_at g).2 = (get_supabase g).2
  ∧ score content risk_level created_at (get_supabase g).2
    = score content risk_level created_at g.
Proof.
  unfold compute_importance_score.
  destruct (learned_score_global content g) as [H1 H2]. rewrite H2.
  by destruct (learned_score content g).
Qed.

Lemma batch_score_map (hs : list highlight_dict) (g : option Client) :
  (batch hs g).1 = map (λ h, set_importance_score h (score_of h g)) hs
  ∧ (batch hs g).2 = (if hs is [] then g else (get_supabase g).2).
Proof.
  revert g. induction hs as [|h hs IH]; intros g; [done|].
  cbn [batch_score map]. unfold score_highlight.
  pose proof (score_global (default [] (get_content_snippet h))
                (default (lit "medium") (get_risk_level h))
                (TsStr <$> get_created_at h) g) as [Hg _].
  destruct (score (default [] (get_content_snippet h))
              (default (lit "medium") (get_risk_level h))
              (TsStr <$> get_created_at h) g) as [s g1].
  cbn [fst snd] in Hg. subst g1.
  destruct (IH (get_supabase g).2) as [IH1 IH2].
  destruct (batch hs (get_supabase g).2) as [rest g2].
  cbn [fst snd] in IH1, IH2 |- *. subst rest g2. split.
  - f_equal. apply map_ext. intros h'.
    f_equal. f_equal. apply score_global.
  - destruct hs; [done|]. by rewrite get_supabase_idem.
Qed.

Lemma batch_score_scored (hs : list highlight_dict) (g : option Client) :
  length (batch hs g).1 = length hs
  ∧ Forall (λ h, ∃ q, get_importance_score h = Some q ∧ 0 <= q <= 1)
           (batch hs g).1.
Proof.
  destruct (batch_score_map hs g) as [-> _].
  rewrite length_map. split; [done|].
  apply Forall_fmap, Forall_forall. intros h _. simpl.
  eexists. split; [done|]. rewrite score_unfold. apply composite_bounds.
Qed.

(** [batch_score] keeps the length and the order of the list and every
    field but the score; each highlight gets the score it would get on
    its own from the same starting state, which lies between 0 and 1;
    and the global client ends as one call of [_get_supabase] leaves
    it. *)
Theorem batch_score_pointwise (hs : list highlight_dict)
    (g : option Client) :
  (batch hs g).1 = map (λ h, set_importance_score h (score_of h g)) hs
  ∧ (batch hs g).2 = (if hs is [] then g else (get_supabase g).2)
  ∧ length (batch hs g).1 = length hs
  ∧ Forall (λ h, ∃ q, get_importance_score h = Some q ∧ 0 <= q <= 1)
           (batch hs g).1.
Proof.
  destruct (batch_score_map hs g) as [H1 H2].
  destruct (batch_score_scored hs g) as [H3 H4].
  by repeat split.
Qed.
End batch_properties.

Local Close Scope Q_scope.

(** * Sorting with a key *)

Section sort_by_facts.
Context {A : Type}.
Variable leb : A → A → bool.

Lemma insert_by_perm (x : A) (l : list A) : insert_by leb x l ≡ₚ x :: l.
Proof.
  induction l as [|y l IH]; simpl; [done|].
  destruct (leb y x); [done|]. rewrite IH. apply Permutation_swap.
Qed.

Lemma sort_by_perm (l : list A) : sort_by leb l ≡ₚ l.
Proof.
  induction l as [|x l IH]; simpl; [done|].
  by rewrite insert_by_perm, IH.
Qed.

Hypothesis leb_total : ∀ x y, leb x y = true ∨ leb y x = true.
Hypothesis leb_trans : ∀ x y z, leb x y = true → leb y z = true → leb x z = true.

Lemma insert_by_sorted (x : A) (l : list A) :
  sorted_by leb l → sorted_by leb (insert_by leb x l).
Proof.
  induction l as [|y l IH]; simpl; [done|]. intros [Hy Hl].
  destruct (leb y x) eqn:Hyx; simpl.
  - split; [|done]. constructor; [done|].
    eapply Forall_impl; [exact Hy|]. simpl. intros z Hz. by eapply leb_trans.
  - split; [|by apply IH].
    rewrite (insert_by_perm x l). constructor; [|done].
    by destruct (leb_total x y) as [?|?]; [|congruence].
Qed.

Lemma sort_by_sorted (l : list A) : sorted_by leb (sort_by leb l).
Proof. induction l; simpl; [done | by apply insert_by_sorted]. Qed.
End sort_by_facts.

(** * The redact endpoint *)

(** The response of [redact_text] carries the redacted text of [redact];
    its breakdown lists the counts of the map, largest first, and they
    add up to [entity_count]. *)
Theorem redact_text_breakdown (fresh : str) (request : RedactRequest)
    (store : gmap str RedactionMap) :
  let m := (redact fresh (request_text request) store).1.2 in
  let resp := (redact_text fresh request store).1 in
  redacted_text resp = (redact fresh (request_text request) store).1.1
  ∧ entity_count resp = total_entities m
  ∧ entities_by_type resp ≡ₚ entity_counts m
  ∧ sorted_by (λ e1 e2 : str * nat, e1.2 <=? e2.2) (entities_by_type resp)
  ∧ sum_list_with snd (entities_by_type resp) = entity_count resp.
Proof.
  intros m resp.
  pose proof (redact_counts_NoDup fresh (request_text request) store) as Hnd.
  pose proof (redact_map_state fresh (request_text request) store) as Hst.
  fold m in Hnd, Hst.
  assert (Hresp : resp = mkRedactResponse
            (redact fresh (request_text request) store).1.1
            (total_entities m)
            (sort_by (λ e1 e2 : str * nat, e1.2 <=? e2.2) (entity_counts m))
            (if cleanup_map request then None else Some (id m))).
  { unfold resp, m, redact_text.
    destruct (redact fresh (request_text request) store) as [[red m'] st1].
    by destruct (cleanup_map request). }
  rewrite Hresp. cbn [redacted_text entity_count entities_by_type].
  split; [done|]. split; [done|]. split; [apply sort_by_perm|]. split.
  - apply sort_by_sorted.
    + intros x y. rewrite !Nat.leb_le. lia.
    + intros x y z. rewrite !Nat.leb_le. lia.
  - rewrite sort_by_perm. destruct Hst as (_ & Hfwd & _ & Hcnt).
    unfold total_entities. rewrite Hfwd.
    rewrite <- (length_map fst (numbered _ _)), numbered_keys, length_map.
    rewrite <- (length_map snd (first_seen _)).
    by apply counts_sum.
Qed.

(** With [cleanup_map] set the map is gone from the store when
    [redact_text] returns and no identifier is disclosed; the store is
    as before if the identifier was not in use.  Without it the
    response carries the identifier under which the map is stored.
    Other entries of the store are never touched. *)
Theorem redact_text_lifecycle (fresh : str) (request : RedactRequest)
    (store : gmap str RedactionMap) :
  let m := (redact fresh (request_text request) store).1.2 in
  let resp := (redact_text fresh request store).1 in
  let store' := (redact_text fresh request store).2 in
  (cleanup_map request = true →
     redaction_map_id resp = None ∧ store' !! fresh = None
     ∧ (store !! fresh = None → store' = store))
  ∧ (cleanup_map request = false →
       redaction_map_id resp = Some fresh ∧ store' !! fresh = Some m)
  ∧ ∀ other, other ≠ fresh → store' !! other = store !! other.
Proof.
  intros m resp store'.
  destruct (redact_render fresh (request_text request) store)
    as (Hstore & Hid & _).
  fold m in Hstore, Hid.
  assert (Hcases :
    (resp, store')
    = (mkRedactResponse
         (redact fresh (request_text request) store).1.1
         (total_entities m)
         (sort_by (λ e1 e2 : str * nat, e1.2 <=? e2.2) (entity_counts m))
         (if cleanup_map request then None else Some fresh),
       if cleanup_map request then delete fresh (<[fresh := m]> store)
       else <[fresh := m]> store)).
  { unfold resp, store', m, redact_text in *.
    destruct (redact fresh (request_text request) store) as [[red m'] st1].
    cbn [fst snd] in *. subst st1. rewrite Hid.
    destruct (cleanup_map request); [|done].
    unfold cleanup_redaction_map. by rewrite lookup_insert_eq. }
  injection Hcases as Hresp Hst. rewrite Hresp, Hst.
  cbn [redaction_map_id]. split; [|split].
  - intros ->. split; [done|]. split; [apply lookup_delete_eq|].
    intros Hfree. by apply delete_insert_id.
  - intros ->. split; [done|]. apply lookup_insert_eq.
  - intros other Hne. destruct (cleanup_map request).
    + rewrite lookup_delete_ne by done. by rewrite lookup_insert_ne.
    + by rewrite lookup_insert_ne.
Qed.

(** * The retry loop of the model client *)

Section retry_properties.
Context {Json : Type}.
Variable json_loads : str → str + Json.
Variable create : nat → api_reply.

Lemma retry_loop_skip (k remaining attempt : nat) (slept : list Q) :
  k ≤ remaining →
  (∀ i, i < k → create (attempt + i) = RateLimited) →
  retry_loop json_loads create remaining attempt slept
  = retry_loop json_loads create (remaining - k) (attempt + k)
      (slept ++ backoff attempt k).
Proof.
  revert remaining attempt slept.
  induction k as [|k IH]; intros remaining attempt slept Hk Hrl.
  - by rewrite Nat.sub_0_r, Nat.add_0_r, app_nil_r.
  - destruct remaining as [|remaining]; [lia|]. simpl.
    pose proof (Hrl 0 ltac:(lia)) as H0. rewrite Nat.add_0_r in H0.
    rewrite H0. rewrite IH.
    + f_equal; [lia | by rewrite <- app_assoc].
    + lia.
    + intros i Hi. replace (S attempt + i) with (attempt + S i) by lia.
      apply Hrl. lia.
Qed.

Lemma retry_loop_slept (remaining attempt : nat) (slept : list Q) :
  ∃ k, k ≤ remaining
       ∧ (retry_loop json_loads create remaining attempt slept).2
         = slept ++ backoff attempt k.
Proof.
  revert attempt slept. induction remaining as [|remaining IH];
    intros attempt slept.
  - exists 0. split; [lia|]. simpl. by rewrite app_nil_r.
  - simpl. destruct (create attempt) as [|e|[c|]].
    + destruct (IH (S attempt)
                  (slept ++ [(RETRY_BASE_DELAY
                              * inject_Z (2 ^ Z.of_nat (attempt - 1)))%Q]))
        as (k & Hk & ->).
      exists (S k). split; [lia|]. by rewrite <- app_assoc.
    + exists 0. split; [lia|]. simpl. by rewrite app_nil_r.
    + exists 0. split; [lia|]. rewrite app_nil_r.
      destruct (is_empty c); [done|]. by destruct (json_loads c).
    + exists 0. split; [lia|]. simpl. by rewrite app_nil_r.
Qed.

(** [_call_with_retry] sleeps only between rate-limited attempts, for
    1, 2 and 4 seconds in that order and never more than three times,
    so for at most 7 seconds; without an API key it makes no attempt. *)
Theorem call_with_retry_backoff (GROQ_API_KEY : option str) :
  let slept := (_call_with_retry json_loads create GROQ_API_KEY).2 in
  (∃ k, k ≤ 3 ∧ Forall2 Qeq slept (take k [1; 2; 4]%Q))
  ∧ (is_empty (default [] GROQ_API_KEY) = true →
     _call_with_retry json_loads create GROQ_API_KEY
     = (inl (RuntimeError
               (lit "GROQ_API_KEY environment variable is not set. "
                ++ lit "Obtain a key from https://console.groq.com "
                ++ lit "and export it.")), [])).
Proof.
  unfold _call_with_retry.
  destruct (is_empty (default [] GROQ_API_KEY)).
  - split; [|done]. exists 0. split; [lia | constructor].
  - split; [|done].
    destruct (retry_loop_slept MAX_RETRIES 1 []) as (k & Hk & ->).
    exists k. split; [done|]. unfold MAX_RETRIES in Hk.
    destruct k as [|[|[|[|k]]]]; [| | | |lia]; simpl;
      repeat constructor; by vm_compute.
Qed.

(** After three rate-limited attempts [_call_with_retry] gives up with
    [RuntimeError], having slept after each of them, the last one
    included. *)
Theorem call_with_retry_exhausted (GROQ_API_KEY : option str) :
  is_empty (default [] GROQ_API_KEY) = false →
  (∀ attempt, 1 ≤ attempt ≤ 3 → create attempt = RateLimited) →
  (_call_with_retry json_loads create GROQ_API_KEY).1
  = inl (RuntimeError (lit "Groq API rate limit exceeded after 3 retries"))
  ∧ Forall2 Qeq (_call_with_retry json_loads create GROQ_API_KEY).2
      [1; 2; 4]%Q.
Proof.
  intros Hkey Hrl. unfold _call_with_retry. rewrite Hkey.
  rewrite (retry_loop_skip 3 MAX_RETRIES 1 []).
  - simpl. split; [done|]. repeat constructor; by vm_compute.
  - unfold MAX_RETRIES. lia.
  - intros i Hi. apply Hrl. lia.
Qed.

(** Rate-limited attempts do not change the outcome: the first attempt
    that is answered, if it is one of the three, decides it, after the
    delays of the attempts before it. *)
Theorem call_with_retry_first_answer (GROQ_API_KEY : option str)
    (k : nat) (content : str) (parsed : Json) :
  is_empty (default [] GROQ_API_KEY) = false →
  k < 3 →
  (∀ attempt, 1 ≤ attempt ≤ k → create attempt = RateLimited) →
  create (S k) = Replied (Some content) →
  is_empty content = false →
  json_loads content = inr parsed →
  _call_with_retry json_loads create GROQ_API_KEY
  = (inr parsed, backoff 1 k).
Proof.
  intros Hkey Hk Hrl Hreply Hne Hjson. unfold _call_with_retry. rewrite Hkey.
  rewrite (retry_loop_skip k MAX_RETRIES 1 []).
  - unfold MAX_RETRIES. destruct (3 - k) as [|r] eqn:Hr; [lia|].
    simpl. replace (1 + k) with (S k) by lia.
    by rewrite Hreply, Hne, Hjson.
  - unfold MAX_RETRIES. lia.
  - intros i Hi. apply Hrl. lia.
Qed.
End retry_properties.

Lemma call_with_retry_exhausted_witness :
  let key := Some (lit "gsk_test") in
  let create := λ _ : nat, RateLimited in
  let loads := λ s : str, @inr str str s in
  is_empty (default [] key) = false
  ∧ (∀ attempt, 1 ≤ attempt ≤ 3 → create attempt = RateLimited)
  ∧ (_call_with_retry loads create key).1
    = inl (RuntimeError (lit "Groq API rate limit exceeded after 3 retries"))
  ∧ Forall2 Qeq (_call_with_retry loads create key).2 [1; 2; 4]%Q.
Proof.
  intros key create loads.
  assert (H1 : is_empty (default [] key) = false) by reflexivity.
  assert (H2 : ∀ attempt, 1 ≤ attempt ≤ 3 → create attempt = RateLimited)
    by reflexivity.
  split; [exact H1|]. split; [exact H2|].
  exact (call_with_retry_exhausted loads create key H1 H2).
Defined.

Lemma call_with_retry_first_answer_witness :
  let key := Some (lit "gsk_test") in
  let create := λ attempt : nat,
    if attempt =? 1 then RateLimited else Replied (Some (lit "{}")) in
  let loads := λ s : str, @inr str str s in
  is_empty (default [] key) = false
  ∧ 1 < 3
  ∧ (∀ attempt, 1 ≤ attempt ≤ 1 → create attempt = RateLimited)
  ∧ create 2 = Replied (Some (lit "{}"))
  ∧ is_empty (lit "{}") = false
  ∧ loads (lit "{}") = inr (lit "{}")
  ∧ _call_with_retry loads create key = (inr (lit "{}"), backoff 1 1).
Proof.
  intros key create loads.
  assert (H1 : is_empty (default [] key) = false) by reflexivity.
  assert (H2 : 1 < 3) by lia.
  assert (H3 : ∀ attempt, 1 ≤ attempt ≤ 1 → create attempt = RateLimited).
  { intros attempt Ha. assert (attempt = 1) as -> by lia. reflexivity. }
  assert (H4 : create 2 = Replied (Some (lit "{}"))) by reflexivity.
  assert (H5 : is_empty (lit "{}") = false) by reflexivity.
  assert (H6 : loads (lit "{}") = inr (lit "{}")) by reflexivity.
  repeat (split; [assumption|]).
  exact (call_with_retry_first_answer loads create key 1 (lit "{}") (lit "{}")
           H1 H2 H3 H4 H5 H6).
Defined.

(** * The highlights endpoint *)

Lemma cleanup_snd (map_id : str) (store : gmap str RedactionMap) :
  (cleanup_redaction_map map_id store).2 = delete map_id store.
Proof.
  unfold cleanup_redaction_map.
  destruct (store !! map_id) eqn:H; [done|]. simpl. symmetry.
  by apply delete_id.
Qed.

Lemma cleanup_all_lookup (map_ids : list str) (store : gmap str RedactionMap)
    (k : str) :
  cleanup_all map_ids store !! k
  = if decide (k ∈ map_ids) then None else store !! k.
Proof.
  unfold cleanup_all. revert store.
  induction map_ids as [|i ids IH]; intros store; cbn [fold_left].
  - destruct (decide (k ∈ [])) as [Hin|_]; [by apply elem_of_nil in Hin | done].
  - rewrite IH, cleanup_snd.
    destruct (decide (k ∈ ids)) as [Hin|Hin];
      destruct (decide (k ∈ i :: ids)) as [Hin'|Hin']; try done.
    + exfalso. apply Hin'. by right.
    + apply elem_of_cons in Hin' as [->|?]; [|done]. apply lookup_delete_eq.
    + apply not_elem_of_cons in Hin' as [Hne _]. by rewrite lookup_delete_ne.
Qed.

Lemma redact_entries_ids (uuid : nat → str) (entries : list HighlightEntry) :
  ∀ i store,
    (redact_entries uuid i entries store).1.2
    = map uuid (seq i (length entries))
    ∧ length (redact_entries uuid i entries store).1.1 = length entries.
Proof.
  induction entries as [|e entries IH]; intros i store; [done|].
  cbn [redact_entries].
  destruct (redact_render (uuid i) (entry_content e) store) as (_ & Hid & _).
  destruct (redact (uuid i) (entry_content e) store) as [[red m] st1].
  cbn [fst snd] in Hid.
  destruct (IH (S i) st1) as [H1 H2].
  destruct (redact_entries uuid (S i) entries st1) as [[rs ids] st2].
  cbn [fst snd length map seq] in *. by rewrite Hid, H1, H2.
Qed.

Lemma redact_entries_store (uuid : nat → str) (entries : list HighlightEntry) :
  ∀ i store k,
    let ids := (redact_entries uuid i entries store).1.2 in
    let store' := (redact_entries uuid i entries store).2 in
    (k ∈ ids → is_Some (store' !! k)) ∧ (k ∉ ids → store' !! k = store !! k).
Proof.
  induction entries as [|e entries IH]; intros i store k.
  - simpl. split; [by intros ?%elem_of_nil | done].
  - cbn [redact_entries].
    destruct (redact_render (uuid i) (entry_content e) store)
      as (Hst & Hid & _).
    destruct (redact (uuid i) (entry_content e) store) as [[red m] st1].
    cbn [fst snd] in Hst, Hid. subst st1.
    specialize (IH (S i) (<[id m := m]> store) k).
    destruct (redact_entries uuid (S i) entries (<[id m := m]> store))
      as [[rs ids] st2].
    cbn [fst snd] in *. destruct IH as [IH1 IH2]. split.
    + intros Hin. destruct (decide (k ∈ ids)) as [?|Hnot]; [by apply IH1|].
      apply elem_of_cons in Hin as [-> | ?]; [|done].
      rewrite IH2 by done. rewrite lookup_insert_eq. by eexists.
    + intros Hnot. apply not_elem_of_cons in Hnot as [Hne Hnot].
      rewrite IH2 by done. by rewrite lookup_insert_ne.
Qed.

Lemma de_redact_all_ok (text : str) (map_ids : list str)
    (store : gmap str RedactionMap) :
  (∀ k, k ∈ map_ids → is_Some (store !! k)) →
  ∃ out, de_redact_all text map_ids store = inr out.
Proof.
  revert text. induction map_ids as [|i ids IH]; intros text Hall; simpl.
  - by eexists.
  - destruct (Hall i) as [m Hm]; [left|].
    unfold de_redact. rewrite Hm. apply IH. intros k Hk. apply Hall. by right.
Qed.

Lemma restore_highlights_ok (map_ids : list str)
    (store : gmap str RedactionMap) (hs : list highlight_dict) :
  (∀ k, k ∈ map_ids → is_Some (store !! k)) →
  Forall (λ h, ∃ q, get_importance_score h = Some q ∧ (0 <= q <= 1)%Q) hs →
  ∃ rs, restore_highlights map_ids store hs = inr rs
        ∧ length rs = length hs
        ∧ Forall (λ r, (0 <= importance_score r <= 1)%Q) rs.
Proof.
  intros Hids. induction 1 as [|h hs (q & Hq & Hq0 & Hq1) _ IH]; simpl.
  - exists []. by repeat split.
  - destruct IH as (rs & -> & Hlen & Hall).
    unfold restore_highlight.
    destruct (de_redact_all_ok (default [] (get_content_snippet h))
                map_ids store Hids) as [snippet ->].
    destruct (de_redact_all_ok (default [] (get_risk_reason h))
                map_ids store Hids) as [reason ->].
    rewrite Hq. simpl.
    apply Qle_bool_iff in Hq0, Hq1. rewrite Hq0, Hq1. simpl.
    eexists. split; [done|]. split; [simpl; by rewrite Hlen|].
    constructor; [|done]. simpl. by rewrite <- !Qle_bool_iff.
Qed.

Lemma dict_bump_sum (d : list (str * nat)) (k : str) :
  sum_list_with snd (dict_set d k (default 0 (dict_get d k) + 1))
  = S (sum_list_with snd d).
Proof.
  induction d as [|[k' n] d IH]; simpl; [done|].
  destruct (decide (k = k')) as [->|Hne]; simpl; [lia|].
  rewrite IH. lia.
Qed.

Lemma count_levels_sum (hs : list Highlight) :
  sum_list_with snd (count_levels hs) = length hs.
Proof.
  unfold count_levels.
  assert (Hgen : ∀ summary,
            sum_list_with snd
              (fold_left (λ summary h,
                            dict_set summary (risk_level h)
                              (default 0 (dict_get summary (risk_level h)) + 1))
                         hs summary)
            = sum_list_with snd summary + length hs).
  { induction hs as [|h hs IH]; intros summary; simpl; [lia|].
    rewrite IH, dict_bump_sum. lia. }
  by rewrite Hgen.
Qed.

Lemma Qle_bool_total (x y : Q) : Qle_bool x y = true ∨ Qle_bool y x = true.
Proof.
  rewrite !Qle_bool_iff. destruct (Qlt_le_dec x y) as [?%Qlt_le_weak|?]; auto.
Qed.

Lemma Qle_bool_trans (x y z : Q) :
  Qle_bool x y = true → Qle_bool y z = true → Qle_bool x z = true.
Proof. rewrite !Qle_bool_iff. apply Qle_trans. Qed.

(** Step 3 changes nothing but [created_at], and sets it only to the
    non-empty [created_at] of an entry whose label [Entry N] occurs in
    the provenance pointer: of the first such entry in request order. *)
Theorem enrich_created_at (entries : list HighlightEntry)
    (h : highlight_dict) :
  let labelled i e :=
    contains (lit "Entry " ++ str_of_nat (i + 1))
             (default [] (get_provenance_pointer h))
    && negb (is_empty (default [] (entry_created_at e))) in
  (enrich entries h = h
   ∧ ∀ i e, entries !! i = Some e → labelled i e = false)
  ∨ ∃ i e,
      entries !! i = Some e ∧ labelled i e = true
      ∧ (∀ j e', j < i → entries !! j = Some e' → labelled j e' = false)
      ∧ enrich entries h
        = set_created_at h (default [] (entry_created_at e)).
Proof.
  intros labelled. unfold enrich.
  assert (Hgen : ∀ k,
    (enrich_from k entries (default [] (get_provenance_pointer h)) h = h
     ∧ ∀ i e, entries !! i = Some e → labelled (k + i) e = false)
    ∨ ∃ i e,
        entries !! i = Some e ∧ labelled (k + i) e = true
        ∧ (∀ j e', j < i → entries !! j = Some e' → labelled (k + j) e' = false)
        ∧ enrich_from k entries (default [] (get_provenance_pointer h)) h
          = set_created_at h (default [] (entry_created_at e))).
  { induction entries as [|e entries IH]; intros k.
    - left. split; [done|]. by intros i e' ?.
    - cbn [enrich_from]. destruct (labelled k e) eqn:Hk.
      + right. exists 0, e. rewrite Nat.add_0_r.
        unfold labelled in Hk. rewrite Hk.
        split; [done|]. split; [done|]. split; [|done]. intros j e' Hj. lia.
      + unfold labelled in Hk. rewrite Hk. fold labelled in Hk |- *.
        destruct (IH (S k)) as [[Heq Hno] | (i & e' & Hi & Hlab & Hbefore & Heq)].
        * left. split; [done|]. intros [|i] e' Hi.
          -- injection Hi as <-. by rewrite Nat.add_0_r.
          -- replace (k + S i) with (S k + i) by lia. by apply Hno.
        * right. exists (S i), e'.
          replace (k + S i) with (S k + i) by lia.
          split; [done|]. split; [done|]. split; [|done].
          intros [|j] e'' Hj Hlook.
          -- injection Hlook as <-. by rewrite Nat.add_0_r.
          -- replace (k + S j) with (S k + j) by lia.
             apply Hbefore; [lia|done]. }
  apply (Hgen 0).
Qed.

Section highlights_properties.
Context {Client : Type}.
Variable fromisoformat : str → option datetime.
Variable now_us : Z.
Variable SUPABASE_URL SUPABASE_SERVICE_ROLE_KEY : option str.
Variable create_client : str → str → Client.
Variable execute_query : Client → response.
Variable generate_highlights
  : list redacted_entry → exception + list highlight_dict.
Variable uuid : nat → str.

Local Abbreviation handler :=
  (highlights fromisoformat now_us SUPABASE_URL SUPABASE_SERVICE_ROLE_KEY
     create_client execute_query generate_highlights uuid).

(** What step 1 sends to the model. *)
Local Abbreviation sent request store :=
  (redact_entries uuid 0 (request_entries request) store).1.1.

Lemma highlights_unfold (request : HighlightsRequest)
    (store : gmap str RedactionMap) (g : option Client) :
  let r := redact_entries uuid 0 (request_entries request) store in
  handler request store g
  = ((highlights_body fromisoformat now_us SUPABASE_URL
        SUPABASE_SERVICE_ROLE_KEY create_client execute_query
        generate_highlights request r.1.1 r.1.2 r.2 g).1,
     cleanup_all r.1.2 r.2,
     (highlights_body fromisoformat now_us SUPABASE_URL
        SUPABASE_SERVICE_ROLE_KEY create_client execute_query
        generate_highlights request r.1.1 r.1.2 r.2 g).2).
Proof.
  intros r. unfold highlights. fold r. destruct r as [[red ids] st1].
  cbn [fst snd].
  by destruct (highlights_body _ _ _ _ _ _ _ _ _ _ _ _).
Qed.

(** However the request ends, with a response or with an exception of
    any kind, the store holds no map under an identifier drawn for the
    request when the handler is left, and every other map of the store
    is as it was. *)
Theorem highlights_releases_maps (request : HighlightsRequest)
    (store : gmap str RedactionMap) (g : option Client) (k : str) :
  (handler request store g).1.2 !! k
  = if decide (k ∈ map uuid (seq 0 (length (request_entries request))))
    then None else store !! k.
Proof.
  rewrite highlights_unfold. cbn [fst snd].
  rewrite cleanup_all_lookup.
  destruct (redact_entries_ids uuid (request_entries request) 0 store)
    as [Hids _].
  destruct (redact_entries_store uuid (request_entries request) 0 store k)
    as [_ Hout].
  rewrite Hids in *.
  destruct (decide (k ∈ map uuid (seq 0 (length (request_entries request)))));
    [done | by apply Hout].
Qed.


(** When the model call raises, the handler raises an [HTTPException]
    that carries the exception: with status 503 for a [RuntimeError],
    which is what [_call_with_retry] raises for a missing key or an
    exhausted rate limit, and with status 500 for any other; no score
    is computed, so the global client is untouched. *)
Theorem highlights_llm_failure (request : HighlightsRequest)
    (store : gmap str RedactionMap) (g : option Client) (e : exception) :
  generate_highlights (sent request store) = inl e →
  ∃ exc,
    (handler request store g).1.1 = inl exc
    ∧ status_code exc = (if e is RuntimeError _ then 503 else 500)
    ∧ detail_cause exc = e
    ∧ (handler request store g).2 = g.
Proof.
  intros Hgen. rewrite highlights_unfold. cbn [fst snd].
  unfold highlights_body. rewrite Hgen.
  destruct e; eexists; by repeat split.
Qed.
End highlights_properties.


Lemma highlights_llm_failure_witness :
  let e := RuntimeError (lit "GROQ_API_KEY is not configured") in
  let gen := λ _ : list redacted_entry, @inl _ (list highlight_dict) e in
  let request :=
    mkHighlightsRequest
      [mkHighlightEntry (lit "BP 180/110 at 0800") (lit "note") None None]
      None in
  gen (redact_entries str_of_nat 0 (request_entries request) ∅).1.1 = inl e
  ∧ ∃ exc,
      (highlights (λ _, None) 0%Z None None (λ _ _, tt) (λ _, Raised)
         gen str_of_nat request ∅ None).1.1 = inl exc
      ∧ status_code exc = 503
      ∧ detail_cause exc = e
      ∧ (highlights (λ _, None) 0%Z None None (λ _ _, tt) (λ _, Raised)
           gen str_of_nat request ∅ None).2 = None.
Proof.
  intros e gen request.
  assert (H : gen (redact_entries str_of_nat 0 (request_entries request) ∅).1.1
              = inl e) by reflexivity.
  split; [exact H|].
  exact (highlights_llm_failure (λ _, None) 0%Z None None (λ _ _, tt)
           (λ _, Raised) gen str_of_nat request ∅ None e H).
Defined.
